(** * qord: the rate-limit registry and the gateway dispatch core

    A shallow embedding of [qord/core/ratelimits.py] ([Route],
    [RatelimitHandler]), of [qord/core/dispatch.py] ([DispatchHandler]) and
    of [qord/models/guild_members.py] ([GuildMember]), followed by the
    properties proved about them.

    Python objects that are shared by reference (locks, futures, tasks) live
    in explicit stores and are named by their index; dictionaries are finite
    maps; a coroutine is a record holding the point at which it is
    suspended, and the event loop is a list of actions applied in order. *)

From Stdlib Require Import ZArith QArith String Ascii List Lia.
From stdpp Require Import base option gmap strings list pretty.

Local Open Scope string_scope.

(* ===================================================================== *)
(** * Python values, exceptions and results                              *)
(* ===================================================================== *)

Module Py.

(** The exceptions the modelled code can raise.  [NotModelled] is not a
    Python exception: it marks template syntax (attribute access, indexing,
    conversions and format specifications inside a replacement field) that
    this development does not interpret. *)
Inductive exn :=
| KeyError (key : string)
| ValueError (msg : string)
| TypeError
| InvalidStateError
| RuntimeError (msg : string)
| NotModelled.

Inductive result (A : Type) :=
| Ok (a : A)
| Raise (e : exn).
Arguments Ok {A} a.
Arguments Raise {A} e.

Definition bind {A B} (r : result A) (k : A -> result B) : result B :=
  match r with
  | Ok a => k a
  | Raise e => Raise e
  end.


(** Scalar values, as they are passed for the path parameters of a route. *)
Inductive pyval :=
| PyNone
| PyBool (b : bool)
| PyInt (n : Z)
| PyStr (s : string).

(** [str(v)], which is also [format(v, "")] for these types. *)
Definition str (v : pyval) : string :=
  match v with
  | PyNone => "None"
  | PyBool true => "True"
  | PyBool false => "False"
  | PyInt n => pretty n
  | PyStr s => s
  end.

(** [d.get(key)]: the value, or [None] when the key is absent. *)
Definition dict_get (d : gmap string pyval) (key : string) : pyval :=
  match d !! key with
  | Some v => v
  | None => PyNone
  end.

(** Decoded gateway payloads ([typing.Any] in the source): JSON values. *)
#[local] Unset Elimination Schemes.
Inductive json :=
| JNull
| JBool (b : bool)
| JInt (n : Z)
| JStr (s : string)
| JList (l : list json)
| JDict (d : list (string * json)).
#[local] Set Elimination Schemes.

Fixpoint assoc {A} (key : string) (d : list (string * A)) : option A :=
  match d with
  | [] => None
  | (k, v) :: d' => if String.eqb k key then Some v else assoc key d'
  end.

(** [data[key]] for a string key: [KeyError] on a dictionary without the
    key, [TypeError] on anything that is not a dictionary. *)
Definition getitem (data : json) (key : string) : result json :=
  match data with
  | JDict d =>
      match assoc key d with
      | Some v => Ok v
      | None => Raise (KeyError key)
      end
  | _ => Raise TypeError
  end.

(** [len(v)]. *)
Definition len (v : json) : result nat :=
  match v with
  | JList l => Ok (length l)
  | JDict d => Ok (length d)
  | JStr s => Ok (String.length s)
  | _ => Raise TypeError
  end.

(** ** [str.format_map]

    The template is read left to right.  Outside a replacement field,
    a doubled brace stands for one brace, a lone closing brace is an error
    and an opening brace starts a field.  Inside a field the characters up
    to the closing brace are the field name, which is looked up in the
    mapping when the brace closes, so that the first problem met from the
    left is the one reported. *)

Definition is_digit (c : ascii) : bool :=
  let n := nat_of_ascii c in (48 <=? n)%nat && (n <=? 57)%nat.

Fixpoint all_digits (s : string) : bool :=
  match s with
  | EmptyString => true
  | String c s' => is_digit c && all_digits s'
  end.

(** Characters that give a replacement field more structure than a name. *)
Definition is_field_special (c : ascii) : bool :=
  (Ascii.eqb c "{" || Ascii.eqb c "." || Ascii.eqb c "[" || Ascii.eqb c "]"
   || Ascii.eqb c "!" || Ascii.eqb c ":")%char.

(** A field name that [render] reads as a plain key: no closing brace and
    no character that gives the field more structure. *)
Fixpoint plain (name : string) : bool :=
  match name with
  | EmptyString => true
  | String c name' =>
      negb (Ascii.eqb c "}") && negb (is_field_special c) && plain name'
  end.

(** The value of the field called [name]; an empty or numeric name is a
    positional field, which [format_map] has no arguments for. *)
Definition get_field (params : gmap string pyval) (name : string) : result pyval :=
  if all_digits name then
    Raise (ValueError "Format string contains positional fields")
  else
    match params !! name with
    | Some v => Ok v
    | None => Raise (KeyError name)
    end.

(** [field = Some name] while inside a replacement field whose name read
    so far is [name]. *)
Fixpoint render (params : gmap string pyval) (field : option string)
    (s : string) : result string :=
  match s with
  | EmptyString =>
      match field with
      | None => Ok ""
      | Some _ => Raise (ValueError "expected '}' before end of string")
      end
  | String c rest =>
      match field with
      | Some name =>
          if Ascii.eqb c "}" then
            bind (get_field params name) (fun v =>
            bind (render params None rest) (fun out =>
            Ok (str v ++ out)))
          else if is_field_special c then Raise NotModelled
          else render params (Some (name ++ String c "")) rest
      | None =>
          if Ascii.eqb c "{" then
            match rest with
            | EmptyString =>
                Raise (ValueError "Single '{' encountered in format string")
            | String c' rest' =>
                if Ascii.eqb c' "{" then
                  bind (render params None rest') (fun out => Ok (String "{" out))
                else render params (Some "") rest
            end
          else if Ascii.eqb c "}" then
            match rest with
            | String "}" rest' =>
                bind (render params None rest') (fun out => Ok (String "}" out))
            | _ => Raise (ValueError "Single '}' encountered in format string")
            end
          else bind (render params None rest) (fun out => Ok (String c out))
      end
  end.

Definition format_map (template : string) (params : gmap string pyval)
    : result string :=
  render params None template.

End Py.

(* ===================================================================== *)
(** * The asyncio primitives the code relies on                          *)
(* ===================================================================== *)

Module Asyncio.
Import Py.

(** [asyncio.Future]: pending, done with a result, or cancelled. *)
Inductive Future (A : Type) :=
| Pending
| Resolved (v : A)
| Cancelled.
Arguments Pending {A}.
Arguments Resolved {A} v.
Arguments Cancelled {A}.

(** [fut.done()]: true once the future has a result or was cancelled. *)
Definition done {A} (f : Future A) : bool :=
  match f with
  | Pending => false
  | _ => true
  end.

(** [fut.set_result(v)]: allowed on a pending future only. *)
Definition set_result {A} (f : Future A) (v : A) : result (Future A) :=
  match f with
  | Pending => Ok (Resolved v)
  | _ => Raise InvalidStateError
  end.

(** [asyncio.Lock]: the flag and the queue of suspended acquirers (each
    named by the request that waits). *)
Record Lock := { locked : bool; waiters : list nat }.

Definition new_lock : Lock := {| locked := false; waiters := [] |}.

(** [await lock.acquire()] by request [r]: the lock is taken at once when
    it is free and nobody queues for it; otherwise [r] joins the queue and
    suspends.  The boolean tells whether the lock was taken. *)
Definition acquire (l : Lock) (r : nat) : Lock * bool :=
  match locked l, waiters l with
  | false, [] => ({| locked := true; waiters := [] |}, true)
  | _, _ => ({| locked := locked l; waiters := waiters l ++ [r] |}, false)
  end.

(** [lock.release()]: frees the lock (and resolves the future of the first
    queued acquirer); releasing a free lock is an error. *)
Definition release (l : Lock) : result Lock :=
  if locked l then Ok {| locked := false; waiters := waiters l |}
  else Raise (RuntimeError "Lock is not acquired.").

(** The acquirer woken by [release] continues: it is the first of the
    queue of a lock that is free; it leaves the queue and takes the lock. *)
Definition resume (l : Lock) (r : nat) : option Lock :=
  match locked l, waiters l with
  | false, r' :: ws =>
      if Nat.eqb r r' then Some {| locked := true; waiters := ws |} else None
  | _, _ => None
  end.

End Asyncio.

(* ===================================================================== *)
(** * [qord/core/ratelimits.py]                                          *)
(* ===================================================================== *)

Module Ratelimits.
Import Py Asyncio.

Definition REST_BASE_URL : string := "https://discord.com/api/v10".

(** ** [Route] *)

Record Route := {
  method : string;
  path : string;
  requires_auth : bool;
  params : gmap string pyval
}.

(** [Route.__init__]: the four attributes are stored, nothing is rendered. *)
Definition Route_init (method path : string) (requires_auth : bool)
    (params : gmap string pyval) : result Route :=
  Ok {| method := method; path := path;
        requires_auth := requires_auth; params := params |}.

(** The [url] property. *)
Definition url (r : Route) : result string :=
  bind (format_map (path r) (params r)) (fun p => Ok (REST_BASE_URL ++ p)).

(** The [ratelimit_path] property. *)
Definition ratelimit_path (r : Route) : string :=
  let guild_id := dict_get (params r) "guild_id" in
  let channel_id := dict_get (params r) "channel_id" in
  method r ++ "-" ++ path r ++ "-" ++ str guild_id ++ ":" ++ str channel_id.

(** ** [RatelimitHandler]

    [locks] maps a key to a reference into [lock_objs], the lock objects
    allocated so far; a lock dropped from [locks] stays in the store, as an
    [asyncio.Lock] stays alive while a request still holds a reference. *)

Record RatelimitHandler := {
  global_ratelimit_cleared : bool;
  locks : gmap string nat;
  buckets : gmap string string;
  lock_objs : list Lock
}.

Definition RatelimitHandler_init : RatelimitHandler :=
  {| global_ratelimit_cleared := true;
     locks := ∅;
     buckets := ∅;
     lock_objs := [] |}.

Definition clear (h : RatelimitHandler) : RatelimitHandler :=
  {| global_ratelimit_cleared := global_ratelimit_cleared h;
     locks := ∅;
     buckets := ∅;
     lock_objs := lock_objs h |}.

Definition set_global (h : RatelimitHandler) : RatelimitHandler :=
  {| global_ratelimit_cleared := false;
     locks := locks h;
     buckets := buckets h;
     lock_objs := lock_objs h |}.

Definition reset_global (h : RatelimitHandler) : RatelimitHandler :=
  {| global_ratelimit_cleared := true;
     locks := locks h;
     buckets := buckets h;
     lock_objs := lock_objs h |}.

(** What awaiting does to the caller. *)
Inductive awaited := Returns | Suspends.

(** [wait_until_global_reset]: [Event.wait()] returns at once when the
    event is set and suspends the caller otherwise. *)
Definition wait_until_global_reset (h : RatelimitHandler) : awaited :=
  if global_ratelimit_cleared h then Returns else Suspends.

(** The key under which the lock of [path] is stored. *)
Definition lock_key (h : RatelimitHandler) (path : string) : string :=
  match buckets h !! path with
  | Some key => key
  | None => path
  end.

Definition get_lock (h : RatelimitHandler) (path : string)
    : nat * RatelimitHandler :=
  let key := lock_key h path in
  match locks h !! key with
  | Some lock => (lock, h)
  | None =>
      let lock := length (lock_objs h) in
      (lock,
       {| global_ratelimit_cleared := global_ratelimit_cleared h;
          locks := <[key := lock]> (locks h);
          buckets := buckets h;
          lock_objs := lock_objs h ++ [new_lock] |})
  end.

Definition set_bucket (h : RatelimitHandler) (path bucket : string)
    : RatelimitHandler :=
  let locks' :=
    match locks h !! path with
    | Some lock => <[bucket := lock]> (delete path (locks h))
    | None => locks h
    end in
  {| global_ratelimit_cleared := global_ratelimit_cleared h;
     locks := locks';
     buckets := <[path := bucket]> (buckets h);
     lock_objs := lock_objs h |}.

(** [lock.locked()] for a lock reference. *)
Definition is_locked (h : RatelimitHandler) (lock : nat) : bool :=
  match lock_objs h !! lock with
  | Some l => locked l
  | None => false
  end.

(** The calls a client of the registry can make, and a run of them. *)
Inductive call :=
| Clear
| SetGlobal
| ResetGlobal
| GetLock (path : string)
| SetBucket (path bucket : string).

Definition exec (h : RatelimitHandler) (c : call) : RatelimitHandler :=
  match c with
  | Clear => clear h
  | SetGlobal => set_global h
  | ResetGlobal => reset_global h
  | GetLock path => snd (get_lock h path)
  | SetBucket path bucket => set_bucket h path bucket
  end.

Definition exec_all (h : RatelimitHandler) (cs : list call) : RatelimitHandler :=
  fold_left exec cs h.

End Ratelimits.

(* ===================================================================== *)
(** * Requests going through the registry                                *)
(* ===================================================================== *)

Module Requests.
Import Py Asyncio Ratelimits.

(** A request in flight waits for a lock or holds it. *)
Inductive req_state :=
| Waiting (lock : nat)
| Holding (lock : nat).

(** The registry and the requests in flight; a request that is absent
    from [requests] is idle. *)
Record System := {
  registry : RatelimitHandler;
  requests : gmap nat req_state
}.

Definition System_init : System :=
  {| registry := RatelimitHandler_init; requests := ∅ |}.

Definition with_lock_objs (h : RatelimitHandler) (objs : list Lock)
    : RatelimitHandler :=
  {| global_ratelimit_cleared := global_ratelimit_cleared h;
     locks := locks h;
     buckets := buckets h;
     lock_objs := objs |}.

Inductive op :=
| Acquire (r : nat)
| Resume (r : nat)
| Release (r : nat)
| RecordBucket (r : nat) (bucket : string).

Section Step.
(** The route each request is for. *)
Variable route_of : nat -> Route.

(** Modelled from the spec: [acquireRoute], the caller of [get_lock] (the
    REST layer, which is not part of the sources at hand).  The spec has it
    resolve the route's grouping key to its current lock with [get_lock] and
    take that lock, suspending while another request holds it. *)
Definition acquire_route (s : System) (r : nat) : System :=
  match requests s !! r with
  | Some _ => s
  | None =>
      let '(lock, h) := get_lock (registry s) (ratelimit_path (route_of r)) in
      match lock_objs h !! lock with
      | None => s
      | Some l =>
          let '(l', got) := acquire l r in
          {| registry := with_lock_objs h (<[lock := l']> (lock_objs h));
             requests :=
               <[r := if got then Holding lock else Waiting lock]> (requests s) |}
      end
  end.

(** Modelled from the spec: a request suspended in [acquireRoute] goes on
    once the lock it waits for has been released and it is first in line. *)
Definition resume_route (s : System) (r : nat) : System :=
  match requests s !! r with
  | Some (Waiting lock) =>
      match lock_objs (registry s) !! lock with
      | Some l =>
          match resume l r with
          | Some l' =>
              {| registry :=
                   with_lock_objs (registry s)
                     (<[lock := l']> (lock_objs (registry s)));
                 requests := <[r := Holding lock]> (requests s) |}
          | None => s
          end
      | None => s
      end
  | _ => s
  end.

(** Modelled from the spec: the release handle of [acquireRoute]; the
    request releases the lock it took, exactly once. *)
Definition release_route (s : System) (r : nat) : System :=
  match requests s !! r with
  | Some (Holding lock) =>
      match lock_objs (registry s) !! lock with
      | Some l =>
          match release l with
          | Ok l' =>
              {| registry :=
                   with_lock_objs (registry s)
                     (<[lock := l']> (lock_objs (registry s)));
                 requests := delete r (requests s) |}
          | Raise _ => s
          end
      | None => s
      end
  | _ => s
  end.

(** One operation.  [RecordBucket r bucket] is the response to request [r]
    carrying a bucket id: [set_bucket] is called with the grouping key of
    the route of [r]. *)
Definition step (s : System) (o : op) : System :=
  match o with
  | Acquire r => acquire_route s r
  | Resume r => resume_route s r
  | Release r => release_route s r
  | RecordBucket r bucket =>
      {| registry :=
           set_bucket (registry s) (ratelimit_path (route_of r)) bucket;
         requests := requests s |}
  end.

Definition run (s : System) (ops : list op) : System :=
  fold_left step ops s.

(** Request [r] is in the acquired state. *)
Definition acquired (s : System) (r : nat) : Prop :=
  exists lock, requests s !! r = Some (Holding lock).

End Step.

Definition lock_of (st : req_state) : nat :=
  match st with
  | Waiting lock => lock
  | Holding lock => lock
  end.

(** What holds of the requests of one grouping key [p] as long as the one
    bucket id [bucket] is recorded for it: the bucket of [p] is unknown or
    [bucket]; every request in flight refers to the lock that [p] resolves
    to; once the bucket is known no lock is left under [p] itself; a lock
    that is held is locked; one request at most holds. *)
Record consistent (p bucket : string) (s : System) : Prop := {
  cons_bucket :
    buckets (registry s) !! p = None
    \/ buckets (registry s) !! p = Some bucket;
  cons_lock : forall r st,
    requests s !! r = Some st ->
    locks (registry s) !! lock_key (registry s) p = Some (lock_of st);
  cons_fallback :
    buckets (registry s) !! p = Some bucket -> p <> bucket ->
    locks (registry s) !! p = None;
  cons_locked : forall r lock,
    requests s !! r = Some (Holding lock) ->
    is_locked (registry s) lock = true;
  cons_unique : forall r1 r2 l1 l2,
    requests s !! r1 = Some (Holding l1) ->
    requests s !! r2 = Some (Holding l2) ->
    r1 = r2
}.

(** Two descriptors with one grouping key: they differ in [requires_auth]
    only.  Request [0] is for the first, every other request for the
    second. *)
Definition roles_route (auth : bool) : Route :=
  {| method := "GET"; path := "/guilds/{guild_id}/roles";
     requires_auth := auth; params := {["guild_id" := PyInt 42]} |}.

Definition two_routes (r : nat) : Route :=
  match r with
  | O => roles_route true
  | S _ => roles_route false
  end.

End Requests.

(* ===================================================================== *)
(** * [qord/core/dispatch.py]                                            *)
(* ===================================================================== *)

Module Dispatch.
Import Py Asyncio.

(** The model classes [ClientUser] and [Guild] are defined outside the
    sources at hand ([qord/models/users.py], [qord/models/guilds.py]): they
    are parameters.  A constructor may raise on a payload it cannot read. *)
Class Models := {
  ClientUser : Type;
  Guild : Type;
  ClientUser_init : json -> result ClientUser;
  Guild_init : json -> result Guild;
  user_id : ClientUser -> Z;
  guild_id : Guild -> Z;
  unavailable : Guild -> bool
}.

(** A shard is named by its id. *)
Definition Shard := nat.

(** The events of [qord.events] that the handler invokes. *)
Inductive event :=
| GatewayDispatch (shard : Shard) (title : string) (data : json)
| Ready
| ShardReady (shard : Shard).

(** The methods tagged with [event_dispatch_handler]. *)
Inductive handler :=
| on_ready_handler
| on_guild_create_handler.

(** What an observer sees: an event handed to [client.invoke_event], or a
    tagged handler being entered. *)
Inductive obs :=
| Invoked (e : event)
| Entered (f : handler) (shard : Shard).

(** Where a [_prepare_ready] coroutine is suspended. *)
Inductive pc :=
| Start
| AwaitConnected
| AwaitWaiter (fut : nat) (deadline : Q)
| Finished.

(** A task running [_prepare_ready(shard)]. *)
Record Task := { task_shard : option Shard; task_pc : pc }.

Section WithModels.
Context {M : Models}.

(** Modelled from the spec: the cache collaborator ([client._cache],
    defined in [qord/core/cache.py], not part of the sources at hand).
    [add_user] and [add_guild] store the object under its id, replacing
    an earlier one with the same id. *)
Record Cache := {
  users : gmap Z ClientUser;
  guilds : gmap Z Guild
}.

Definition Cache_init : Cache := {| users := ∅; guilds := ∅ |}.

Definition add_user (c : Cache) (u : ClientUser) : Cache :=
  {| users := <[user_id u := u]> (users c); guilds := guilds c |}.

Definition add_guild (c : Cache) (g : Guild) : Cache :=
  {| users := users c; guilds := <[guild_id g := g]> (guilds c) |}.

(** The handler with what it reaches: [client._user], the futures and
    tasks it created (referred to by index), the clock of the event loop
    and the log of what it did. *)
Record DispatchHandler := {
  ready_timeout : Q;
  debug_events : bool;
  cache : Cache;
  client_user : option ClientUser;
  shards_connected : bool;
  guild_create_waiter : option nat;
  ready_task : option nat;
  futures : list (Future Guild);
  tasks : list Task;
  now : Q;
  trace : list obs
}.

Definition DispatchHandler_init (ready_timeout : Q) (debug_events : bool)
    : DispatchHandler :=
  {| ready_timeout := ready_timeout;
     debug_events := debug_events;
     cache := Cache_init;
     client_user := None;
     shards_connected := false;
     guild_create_waiter := None;
     ready_task := None;
     futures := [];
     tasks := [];
     now := 0;
     trace := [] |}.

Definition set_cache (c : Cache) (h : DispatchHandler) : DispatchHandler :=
  {| ready_timeout := ready_timeout h; debug_events := debug_events h;
     cache := c; client_user := client_user h;
     shards_connected := shards_connected h;
     guild_create_waiter := guild_create_waiter h;
     ready_task := ready_task h; futures := futures h; tasks := tasks h;
     now := now h; trace := trace h |}.

Definition set_client_user (u : option ClientUser) (h : DispatchHandler)
    : DispatchHandler :=
  {| ready_timeout := ready_timeout h; debug_events := debug_events h;
     cache := cache h; client_user := u;
     shards_connected := shards_connected h;
     guild_create_waiter := guild_create_waiter h;
     ready_task := ready_task h; futures := futures h; tasks := tasks h;
     now := now h; trace := trace h |}.

Definition set_shards_connected (b : bool) (h : DispatchHandler)
    : DispatchHandler :=
  {| ready_timeout := ready_timeout h; debug_events := debug_events h;
     cache := cache h; client_user := client_user h;
     shards_connected := b;
     guild_create_waiter := guild_create_waiter h;
     ready_task := ready_task h; futures := futures h; tasks := tasks h;
     now := now h; trace := trace h |}.

Definition set_guild_create_waiter (w : option nat) (h : DispatchHandler)
    : DispatchHandler :=
  {| ready_timeout := ready_timeout h; debug_events := debug_events h;
     cache := cache h; client_user := client_user h;
     shards_connected := shards_connected h;
     guild_create_waiter := w;
     ready_task := ready_task h; futures := futures h; tasks := tasks h;
     now := now h; trace := trace h |}.

Definition set_ready_task (t : option nat) (h : DispatchHandler)
    : DispatchHandler :=
  {| ready_timeout := ready_timeout h; debug_events := debug_events h;
     cache := cache h; client_user := client_user h;
     shards_connected := shards_connected h;
     guild_create_waiter := guild_create_waiter h;
     ready_task := t; futures := futures h; tasks := tasks h;
     now := now h; trace := trace h |}.

Definition set_futures (fs : list (Future Guild)) (h : DispatchHandler)
    : DispatchHandler :=
  {| ready_timeout := ready_timeout h; debug_events := debug_events h;
     cache := cache h; client_user := client_user h;
     shards_connected := shards_connected h;
     guild_create_waiter := guild_create_waiter h;
     ready_task := ready_task h; futures := fs; tasks := tasks h;
     now := now h; trace := trace h |}.

Definition set_tasks (ts : list Task) (h : DispatchHandler)
    : DispatchHandler :=
  {| ready_timeout := ready_timeout h; debug_events := debug_events h;
     cache := cache h; client_user := client_user h;
     shards_connected := shards_connected h;
     guild_create_waiter := guild_create_waiter h;
     ready_task := ready_task h; futures := futures h; tasks := ts;
     now := now h; trace := trace h |}.

Definition set_now (t : Q) (h : DispatchHandler) : DispatchHandler :=
  {| ready_timeout := ready_timeout h; debug_events := debug_events h;
     cache := cache h; client_user := client_user h;
     shards_connected := shards_connected h;
     guild_create_waiter := guild_create_waiter h;
     ready_task := ready_task h; futures := futures h; tasks := tasks h;
     now := t; trace := trace h |}.

Definition log (o : obs) (h : DispatchHandler) : DispatchHandler :=
  {| ready_timeout := ready_timeout h; debug_events := debug_events h;
     cache := cache h; client_user := client_user h;
     shards_connected := shards_connected h;
     guild_create_waiter := guild_create_waiter h;
     ready_task := ready_task h; futures := futures h; tasks := tasks h;
     now := now h; trace := trace h ++ [o] |}.

(** [_update_handlers]: the table built at construction from the tagged
    methods. *)
Definition _handlers : gmap string handler :=
  <["READY" := on_ready_handler]>
    (<["GUILD_CREATE" := on_guild_create_handler]> ∅).

(** [invoke]: the event goes to [client.invoke_event]. *)
Definition invoke (h : DispatchHandler) (e : event) : DispatchHandler :=
  log (Invoked e) h.

(** [asyncio.create_task]: the coroutine is scheduled, it has not run
    yet.  Returns the reference to the new task. *)
Definition create_task (h : DispatchHandler) (shard : option Shard)
    : nat * DispatchHandler :=
  (length (tasks h),
   set_tasks (tasks h ++ [{| task_shard := shard; task_pc := Start |}]) h).

Definition set_pc (i : nat) (t : Task) (p : pc) (h : DispatchHandler)
    : DispatchHandler :=
  set_tasks (<[i := {| task_shard := task_shard t; task_pc := p |}]> (tasks h)) h.

(** [_prepare_ready], after the loop: cleanup and the ready event. *)
Definition prepare_ready_exit (h : DispatchHandler) (i : nat) (t : Task)
    : DispatchHandler :=
  let h1 := set_guild_create_waiter None h in
  let h2 :=
    invoke h1 (match task_shard t with
               | None => Ready
               | Some shard => ShardReady shard
               end) in
  let h3 :=
    match task_shard t with
    | None => set_ready_task None h2
    | Some _ => h2
    end in
  set_pc i t Finished h3.

(** [_prepare_ready], one turn of the loop up to the [await]: a fresh
    future becomes the waiter and [wait_for] starts; with a timeout that
    is not positive [wait_for] cancels the future and times out without
    waiting. *)
Definition prepare_ready_arm (h : DispatchHandler) (i : nat) (t : Task)
    : DispatchHandler :=
  let fut := length (futures h) in
  let h1 := set_guild_create_waiter (Some fut) h in
  if Qle_bool (ready_timeout h) 0 then
    prepare_ready_exit (set_futures (futures h ++ [Cancelled]) h1) i t
  else
    set_pc i t (AwaitWaiter fut (now h + ready_timeout h))
      (set_futures (futures h ++ [Pending]) h1).

(** The event loop runs task [i]: [_prepare_ready] goes on from where it
    is suspended to its next suspension or to its end.  A task that
    cannot go on (its flag is not set, its future is pending and its
    deadline not reached) stays as it is. *)
Definition _prepare_ready (h : DispatchHandler) (i : nat) : DispatchHandler :=
  match tasks h !! i with
  | None => h
  | Some t =>
      match task_pc t with
      | Start =>
          match task_shard t with
          | None =>
              if shards_connected h then prepare_ready_arm h i t
              else set_pc i t AwaitConnected h
          | Some _ => prepare_ready_arm h i t
          end
      | AwaitConnected =>
          if shards_connected h then prepare_ready_arm h i t else h
      | AwaitWaiter fut deadline =>
          match futures h !! fut with
          | Some (Resolved _) => prepare_ready_arm h i t
          | Some Pending =>
              if Qle_bool deadline (now h) then
                prepare_ready_exit
                  (set_futures (<[fut := Cancelled]> (futures h)) h) i t
              else h
          | _ => h
          end
      | Finished => h
      end
  end.

(** [on_ready].  [shard._log] only writes to the log of the shard. *)
Definition on_ready (h : DispatchHandler) (shard : Shard) (data : json)
    : DispatchHandler * option exn :=
  match bind (getitem data "user") ClientUser_init with
  | Raise e => (h, Some e)
  | Ok user =>
      let h1 := set_client_user (Some user)
                  (set_cache (add_user (cache h) user) h) in
      match bind (getitem data "guilds") len with
      | Raise e => (h1, Some e)
      | Ok _ =>
          let '(_, h2) := create_task h1 (Some shard) in
          match ready_task h2 with
          | None =>
              let '(task, h3) := create_task h2 None in
              (set_ready_task (Some task) h3, None)
          | Some _ => (h2, None)
          end
      end
  end.

(** [on_guild_create]. *)
Definition on_guild_create (h : DispatchHandler) (shard : Shard) (data : json)
    : DispatchHandler * option exn :=
  match Guild_init data with
  | Raise e => (h, Some e)
  | Ok guild =>
      let h1 :=
        if unavailable guild then h
        else set_cache (add_guild (cache h) guild) h in
      match guild_create_waiter h1 with
      | None => (h1, None)
      | Some w =>
          match futures h1 !! w with
          | None => (h1, None)
          | Some fut =>
              if done fut then (h1, None)
              else
                match set_result fut guild with
                | Ok fut' =>
                    (set_futures (<[w := fut']> (futures h1)) h1, None)
                | Raise e => (h1, Some e)
                end
          end
      end
  end.

Definition call (f : handler) (h : DispatchHandler) (shard : Shard)
    (data : json) : DispatchHandler * option exn :=
  match f with
  | on_ready_handler => on_ready h shard data
  | on_guild_create_handler => on_guild_create h shard data
  end.

(** [handle]: the state afterwards, and the exception that reaches the
    caller, if any. *)
Definition handle (h : DispatchHandler) (shard : Shard) (title : string)
    (data : json) : DispatchHandler * option exn :=
  let h1 :=
    if debug_events h then invoke h (GatewayDispatch shard title data)
    else h in
  match _handlers !! title with
  | None => (h1, None)
  | Some f => call f (log (Entered f shard) h1) shard data
  end.

(** What happens around the handler: the transport delivers a payload,
    the shard manager signals that all shards are connected, time
    passes, the event loop runs a task. *)
Inductive action :=
| Recv (shard : Shard) (title : string) (data : json)
| Connected
| Tick (t : Q)
| Run (task : nat).

Definition step (h : DispatchHandler) (a : action) : DispatchHandler :=
  match a with
  | Recv shard title data => fst (handle h shard title data)
  | Connected => set_shards_connected true h
  | Tick t => if Qle_bool (now h) t then set_now t h else h
  | Run task => _prepare_ready h task
  end.

Definition run (h : DispatchHandler) (acts : list action) : DispatchHandler :=
  fold_left step acts h.

(** Observations. *)
Definition is_invoked (e : event) (o : obs) : bool :=
  match o, e with
  | Invoked Ready, Ready => true
  | Invoked (ShardReady s), ShardReady s' => Nat.eqb s s'
  | _, _ => false
  end.

Definition is_raw_dispatch (o : obs) : bool :=
  match o with
  | Invoked (GatewayDispatch _ _ _) => true
  | _ => false
  end.

Definition is_entered (o : obs) : bool :=
  match o with
  | Entered _ _ => true
  | _ => false
  end.

Definition count (p : obs -> bool) (h : DispatchHandler) : nat :=
  length (filter (fun o => p o = true) (trace h)).

(** The aggregate tasks (those started without a shard). *)
Definition is_aggregate (t : Task) : bool :=
  match task_shard t with
  | None => true
  | Some _ => false
  end.

Definition is_finished (t : Task) : bool :=
  match task_pc t with
  | Finished => true
  | _ => false
  end.


Definition aggregate_finished (h : DispatchHandler) : nat :=
  length (filter (fun t => is_aggregate t && is_finished t = true) (tasks h)).

(** An aggregate wait is in flight: task [i] was started without a
    shard and has not finished. *)
Definition in_flight (h : DispatchHandler) (i : nat) : Prop :=
  exists t, tasks h !! i = Some t
            /\ is_aggregate t = true /\ is_finished t = false.

(** What holds of the aggregate wait in every run: as many aggregate
    [Ready] events were emitted as aggregate waits have finished, and
    the aggregate wait in flight, if any, is the one [_ready_task]
    refers to. *)
Record single_aggregate (h : DispatchHandler) : Prop := {
  sa_count : count (is_invoked Ready) h = aggregate_finished h;
  sa_task : forall i, in_flight h i <-> ready_task h = Some i
}.

(** The readiness event of a wait: aggregate, or of one shard. *)
Definition ready_event (scope : option Shard) : event :=
  match scope with
  | None => Ready
  | Some shard => ShardReady shard
  end.

(** Future [fut] has no result. *)
Definition unresolved (h : DispatchHandler) (fut : nat) : Prop :=
  forall v, futures h !! fut <> Some (Resolved v).

(** Task [i], the only unfinished wait of its scope, is suspended on
    future [fut] with deadline [d]; the future has no result, the clock
    is before [d], and the readiness event of the scope was emitted [n]
    times. *)
Record waiting (scope : option Shard) (i fut : nat) (d : Q) (n : nat)
    (h : DispatchHandler) : Prop := {
  wt_task :
    tasks h !! i
    = Some {| task_shard := scope; task_pc := AwaitWaiter fut d |};
  wt_future : unresolved h fut;
  wt_clock : (now h < d)%Q;
  wt_others : forall j t,
    tasks h !! j = Some t -> j <> i -> task_shard t = scope ->
    task_pc t = Finished;
  wt_count : count (is_invoked (ready_event scope)) h = n
}.

(** A state is rebuilt from its waits, its cache, its user and its log. *)
Definition rebuild (h : DispatchHandler) (c : Cache)
    (u : option ClientUser) (tr : list obs) : DispatchHandler :=
  {| ready_timeout := ready_timeout h; debug_events := debug_events h;
     cache := c; client_user := u;
     shards_connected := shards_connected h;
     guild_create_waiter := guild_create_waiter h;
     ready_task := ready_task h; futures := futures h; tasks := tasks h;
     now := now h; trace := tr |}.

(** How one run of a task changes the tasks, the handle of the aggregate
    task and the log. *)
Inductive task_effect (h h' : DispatchHandler) (i : nat) : Prop :=
| effect_none : h' = h -> task_effect h h' i
| effect_suspend (t : Task) (p : pc) :
    tasks h !! i = Some t ->
    is_finished t = false ->
    p <> Finished ->
    tasks h' = <[i := {| task_shard := task_shard t; task_pc := p |}]> (tasks h) ->
    ready_task h' = ready_task h ->
    trace h' = trace h ->
    task_effect h h' i
| effect_exit (t : Task) :
    tasks h !! i = Some t ->
    is_finished t = false ->
    tasks h' = <[i := {| task_shard := task_shard t; task_pc := Finished |}]> (tasks h) ->
    ready_task h' = match task_shard t with
                    | None => None
                    | Some _ => ready_task h
                    end ->
    trace h' = (trace h ++ [Invoked (ready_event (task_shard t))])%list ->
    task_effect h h' i.

(** How handling a payload changes the tasks and the handle of the
    aggregate task. *)
Inductive payload_effect (h h' : DispatchHandler) : Prop :=
| payload_none :
    tasks h' = tasks h -> ready_task h' = ready_task h ->
    payload_effect h h'
| payload_shard (shard : Shard) (k : nat) :
    ready_task h = Some k ->
    tasks h' = (tasks h ++ [{| task_shard := Some shard; task_pc := Start |}])%list ->
    ready_task h' = Some k ->
    payload_effect h h'
| payload_both (shard : Shard) :
    ready_task h = None ->
    tasks h' = (tasks h ++ [{| task_shard := Some shard; task_pc := Start |};
                            {| task_shard := None; task_pc := Start |}])%list ->
    ready_task h' = Some (S (length (tasks h))) ->
    payload_effect h h'.

(** Everything the quiescence waits read or write: all of the state but
    the cache, [client._user] and the log. *)
Definition waits (h : DispatchHandler) :=
  (ready_timeout h, debug_events h, shards_connected h,
   guild_create_waiter h, ready_task h, futures h, tasks h, now h).

Definition is_readiness (o : obs) : bool :=
  match o with
  | Invoked Ready => true
  | Invoked (ShardReady _) => true
  | _ => false
  end.

(** The readiness events emitted so far, in order. *)
Definition readiness (h : DispatchHandler) : list obs :=
  filter (fun o => is_readiness o = true) (trace h).

(** Two states with the same waits and the same readiness events. *)
Definition same_waits (h1 h2 : DispatchHandler) : Prop :=
  waits h1 = waits h2 /\ readiness h1 = readiness h2.

(** Before the deadline [d]: no payload is delivered and the clock
    stays below [d]. *)
Definition quiet (d : Q) (a : action) : Prop :=
  match a with
  | Recv _ _ _ => False
  | Tick t => (t < d)%Q
  | _ => True
  end.

End WithModels.

Arguments Cache M : clear implicits.
Arguments DispatchHandler M : clear implicits.

(** A small instance of the model classes, to run the handler on concrete
    payloads: a user is its id, a guild is its id with its [unavailable]
    flag (false when the payload has none). *)
Definition read_id (data : json) : result Z :=
  match getitem data "id" with
  | Ok (JInt n) => Ok n
  | Ok _ => Raise TypeError
  | Raise e => Raise e
  end.

Definition read_unavailable (data : json) : bool :=
  match getitem data "unavailable" with
  | Ok (JBool b) => b
  | _ => false
  end.

Definition sample_models : Models :=
  {| ClientUser := Z;
     Guild := Z * bool;
     ClientUser_init := read_id;
     Guild_init := fun data =>
       bind (read_id data) (fun n => Ok (n, read_unavailable data));
     user_id := fun u => u;
     guild_id := fst;
     unavailable := snd |}.

Definition ready_payload (guilds : list json) : json :=
  JDict [("user", JDict [("id", JInt 1)]); ("guilds", JList guilds)].

Definition guild_payload (id : Z) (unavail : bool) : json :=
  JDict [("id", JInt id); ("unavailable", JBool unavail)].

(** ** Runs on concrete payloads *)

(** The handler with the default timeout of two seconds. *)
Definition handler0 (debug : bool) : DispatchHandler sample_models :=
  DispatchHandler_init (M := sample_models) 2 debug.

(** Shard 0 receives READY at time 0; its wait starts (task 0) and the
    aggregate wait (task 1) blocks until all shards are connected. *)
Definition shard_wait_started : list action :=
  [Recv 0 "READY" (ready_payload []); Run 0; Run 1].

(** Three guilds arrive at the times 0.5, 1.0 and 1.5; after each, the
    event loop runs the wait of the shard. *)
Definition three_guilds : list action :=
  [Tick (1 # 2); Recv 0 "GUILD_CREATE" (guild_payload 7 false); Run 0;
   Tick 1; Recv 0 "GUILD_CREATE" (guild_payload 8 false); Run 0;
   Tick (3 # 2); Recv 0 "GUILD_CREATE" (guild_payload 9 true); Run 0].


End Dispatch.

(* ===================================================================== *)
(** * More of [qord/core/ratelimits.py]                                  *)
(* ===================================================================== *)

Module Registry.
Import Py Asyncio Ratelimits.

(** A template without any brace. *)
Fixpoint no_braces (s : string) : bool :=
  match s with
  | EmptyString => true
  | String c s' =>
      negb (Ascii.eqb c "{") && negb (Ascii.eqb c "}") && no_braces s'
  end.


(** The lock map of a registry refers to lock objects that exist, and no
    lock object is stored under two keys. *)
Record well_formed (h : RatelimitHandler) : Prop := {
  wf_range : forall k l, locks h !! k = Some l -> (l < length (lock_objs h))%nat;
  wf_inj : forall k1 k2 l,
    locks h !! k1 = Some l -> locks h !! k2 = Some l -> k1 = k2
}.

End Registry.

(* ===================================================================== *)
(** * More of [qord/core/dispatch.py]                                    *)
(* ===================================================================== *)

Module Handlers.
Import Py Dispatch.

(** A member of the handler object as [inspect.getmembers] lists it: a
    method decorated with [event_dispatch_handler(title)] carries the title
    in its [__handler_event__] attribute; reading that attribute of any
    other member raises [AttributeError]. *)
Inductive member (A : Type) :=
| Plain (name : string)
| Tagged (name : string) (title : string) (value : A).
Arguments Plain {A} name.
Arguments Tagged {A} name title value.

(** One turn of the loop of [_update_handlers]. *)
Definition register {A} (table : gmap string A) (m : member A) : gmap string A :=
  match m with
  | Plain _ => table
  | Tagged _ title value => <[title := value]> table
  end.

(** [_update_handlers], on the members in the order [getmembers] gives. *)
Definition _update_handlers {A} (members : list (member A)) : gmap string A :=
  fold_left register members ∅.

(** The values that carry [title], in the order of the members. *)
Fixpoint tagged_with {A} (title : string) (members : list (member A)) : list A :=
  match members with
  | [] => []
  | Plain _ :: ms => tagged_with title ms
  | Tagged _ title' value :: ms =>
      if String.eqb title' title then value :: tagged_with title ms
      else tagged_with title ms
  end.

(** The members of [DispatchHandler], by name; the attributes inherited
    from [object] are plain as well and are left out. *)
Definition DispatchHandler_members : list (member handler) :=
  [Plain "__init__"; Plain "_guild_create_waiter"; Plain "_handlers";
   Plain "_invoke"; Plain "_prepare_ready"; Plain "_ready_task";
   Plain "_shards_connected"; Plain "_update_handlers"; Plain "cache";
   Plain "client"; Plain "debug_events"; Plain "handle"; Plain "invoke";
   Tagged "on_guild_create" "GUILD_CREATE" on_guild_create_handler;
   Tagged "on_ready" "READY" on_ready_handler;
   Plain "ready_timeout"].

End Handlers.

Module Readiness.
Import Py Asyncio Dispatch.

(** Task [t] is the wait of shard [s]. *)
Definition is_shard_task (s : Shard) (t : Task) : bool :=
  match task_shard t with
  | Some s' => Nat.eqb s s'
  | None => false
  end.

(** A READY payload delivered for shard [s]. *)
Definition is_ready_for (s : Shard) (a : action) : bool :=
  match a with
  | Recv s' title _ => Nat.eqb s s' && String.eqb title "READY"
  | _ => false
  end.

Definition ready_received (s : Shard) (acts : list action) : nat :=
  length (filter (fun a => is_ready_for s a = true) acts).

Section WithModels.
Context {M : Models}.

(** The state in which the handler of [title] is entered. *)
Definition entered (h : DispatchHandler M) (shard : Shard) (title : string)
    (data : json) (f : handler) : DispatchHandler M :=
  log (Entered f shard)
    (if debug_events h then invoke h (GatewayDispatch shard title data) else h).

(** The waits started, and those finished, for shard [s]. *)
Definition shard_started (h : DispatchHandler M) (s : Shard) : nat :=
  length (filter (fun t => is_shard_task s t = true) (tasks h)).

Definition shard_finished (h : DispatchHandler M) (s : Shard) : nat :=
  length (filter (fun t => is_shard_task s t && is_finished t = true) (tasks h)).

(** Task [i] waits on future [fut], which is pending but is not the
    current waiter of the handler: another wait armed its own future, or a
    wait that finished reset the waiter.  No other task waits on [fut]. *)
Record orphaned (scope : option Shard) (i fut : nat) (d : Q)
    (h : DispatchHandler M) : Prop := {
  or_task :
    tasks h !! i = Some {| task_shard := scope; task_pc := AwaitWaiter fut d |};
  or_future : futures h !! fut = Some Pending;
  or_waiter : guild_create_waiter h <> Some fut;
  or_alone : forall j t d',
    tasks h !! j = Some t -> task_pc t = AwaitWaiter fut d' -> j = i
}.

(** Task [i] is a wait of [scope] that has finished. *)
Definition finished_wait (scope : option Shard) (i : nat)
    (h : DispatchHandler M) : Prop :=
  tasks h !! i = Some {| task_shard := scope; task_pc := Finished |}.

(** What one run of task [j] does to the futures, the waiter and the
    task: nothing; or it suspends on the connected flag; or it arms a fresh
    future (which [wait_for] cancels at once when the timeout is not
    positive); or its pending future times out. *)
Inductive wait_effect (h h' : DispatchHandler M) (j : nat) : Prop :=
| we_none : h' = h -> wait_effect h h' j
| we_connect (t : Task) :
    tasks h !! j = Some t ->
    tasks h' = <[j := {| task_shard := task_shard t;
                         task_pc := AwaitConnected |}]> (tasks h) ->
    futures h' = futures h ->
    guild_create_waiter h' = guild_create_waiter h ->
    wait_effect h h' j
| we_arm (t : Task) (d : Q) :
    tasks h !! j = Some t ->
    tasks h' = <[j := {| task_shard := task_shard t;
                         task_pc := AwaitWaiter (length (futures h)) d |}]>
                 (tasks h) ->
    futures h' = (futures h ++ [Pending])%list ->
    guild_create_waiter h' = Some (length (futures h)) ->
    wait_effect h h' j
| we_arm_expired (t : Task) :
    tasks h !! j = Some t ->
    tasks h' = <[j := {| task_shard := task_shard t;
                         task_pc := Finished |}]> (tasks h) ->
    futures h' = (futures h ++ [Cancelled])%list ->
    guild_create_waiter h' = None ->
    wait_effect h h' j
| we_timeout (t : Task) (fut : nat) (d : Q) :
    tasks h !! j = Some t ->
    task_pc t = AwaitWaiter fut d ->
    futures h !! fut = Some Pending ->
    tasks h' = <[j := {| task_shard := task_shard t;
                         task_pc := Finished |}]> (tasks h) ->
    futures h' = <[fut := Cancelled]> (futures h) ->
    guild_create_waiter h' = None ->
    wait_effect h h' j.

(** No aggregate wait has gone past waiting for the shards to connect. *)
Record not_connected (h : DispatchHandler M) : Prop := {
  nc_flag : shards_connected h = false;
  nc_tasks : forall i t,
    tasks h !! i = Some t -> task_shard t = None ->
    task_pc t = Start \/ task_pc t = AwaitConnected
}.

End WithModels.

(** All shards are connected when the READY of shard 0 is handled: both
    waits arm a future, the aggregate one last. *)
Definition both_waits_armed : list action :=
  [Recv 0 "READY" (ready_payload []); Connected; Run 0; Run 1].

End Readiness.

(* ===================================================================== *)
(** * [qord/models/guild_members.py]                                     *)
(* ===================================================================== *)

Module Members.
Import Py.

(** [User], [Role] and [parse_iso_timestamp] are defined outside the
    sources at hand ([qord/models/users.py], [qord/models/roles.py],
    [qord/_helpers.py]): they are parameters.  Of a user the member reads
    the name (a string) and the avatar hash (a string or [None]). *)
Class MemberModels := {
  User : Type;
  Role : Type;
  datetime : Type;
  User_init : json -> result User;
  user_name : User -> string;
  user_avatar : User -> option string;
  parse_iso_timestamp : json -> result datetime
}.

(** [data.get(key, default)] on a dictionary. *)
Definition get_default (data : list (string * json)) (key : string)
    (default : json) : json :=
  match assoc key data with
  | Some v => v
  | None => default
  end.

(** The value of a string of ASCII digits. *)
Fixpoint digits_value (s : string) (acc : Z) : Z :=
  match s with
  | EmptyString => acc
  | String c s' => digits_value s' (10 * acc + Z.of_nat (nat_of_ascii c - 48))
  end.

(** [int(v)].  For a string only the plain form is interpreted, a non-empty
    run of ASCII digits; other strings (signs, spaces, underscores, text
    that makes [int] raise) are not modelled. *)
Definition int (v : json) : result Z :=
  match v with
  | JInt n => Ok n
  | JBool true => Ok 1%Z
  | JBool false => Ok 0%Z
  | JStr s =>
      match s with
      | EmptyString => Raise NotModelled
      | _ => if all_digits s then Ok (digits_value s 0) else Raise NotModelled
      end
  | _ => Raise TypeError
  end.

(** Iterating over a value: the elements of a list, the characters of a
    string, the keys of a dictionary; anything else is not iterable. *)
Fixpoint chars (s : string) : list json :=
  match s with
  | EmptyString => []
  | String c s' => JStr (String c EmptyString) :: chars s'
  end.

Definition iterate (v : json) : result (list json) :=
  match v with
  | JList l => Ok l
  | JStr s => Ok (chars s)
  | JDict d => Ok (map (fun kv => JStr (fst kv)) d)
  | _ => Raise TypeError
  end.

(** The list comprehension [[int(x) for x in xs]]: the first element that
    [int] rejects raises. *)
Fixpoint ints (xs : list json) : result (list Z) :=
  match xs with
  | [] => Ok []
  | x :: xs' =>
      bind (int x) (fun n => bind (ints xs') (fun ns => Ok (n :: ns)))
  end.

Section WithModels.
Context {M : MemberModels}.

(** The attributes that [_update_with_data] assigns.  [nickname], [avatar],
    [deaf], [mute] and [pending] are taken from the payload as they are;
    [None] is [JNull]. *)
Record GuildMember := {
  user : User;
  nickname : json;
  avatar : json;
  deaf : json;
  mute : json;
  pending : json;
  joined_at : datetime;
  premium_since : option datetime;
  timeout_until : option datetime;
  role_ids : list Z;
  roles : list (option Role)
}.

(** [parse_iso_timestamp(v) if v is not None else None]. *)
Definition parse_optional (v : json) : result (option datetime) :=
  match v with
  | JNull => Ok None
  | _ => bind (parse_iso_timestamp v) (fun t => Ok (Some t))
  end.

(** [GuildMember.__init__] with [_update_with_data]: the member built from
    the payload, or the first exception met.  [get_role] is
    [guild.cache.get_role], which gives [None] for a role it does not
    have. *)
Definition _update_with_data (get_role : Z -> option Role)
    (data : list (string * json)) : result GuildMember :=
  bind (bind (getitem (JDict data) "user") User_init) (fun user =>
  let nickname := get_default data "nick" JNull in
  let avatar := get_default data "avatar" JNull in
  let deaf := get_default data "deaf" (JBool false) in
  let mute := get_default data "mute" (JBool false) in
  let pending := get_default data "pending" (JBool false) in
  let premium_since := get_default data "premium_since" JNull in
  let timeout_until := get_default data "communication_disabled_until" JNull in
  bind (bind (getitem (JDict data) "joined_at") parse_iso_timestamp)
    (fun joined_at =>
  bind (parse_optional premium_since) (fun premium_since =>
  bind (parse_optional timeout_until) (fun timeout_until =>
  bind (bind (iterate (get_default data "roles" (JList []))) ints)
    (fun role_ids =>
  Ok {| user := user; nickname := nickname; avatar := avatar;
        deaf := deaf; mute := mute; pending := pending;
        joined_at := joined_at; premium_since := premium_since;
        timeout_until := timeout_until; role_ids := role_ids;
        roles := map get_role role_ids |}))))).

(** The [display_name] property. *)
Definition display_name (m : GuildMember) : json :=
  match nickname m with
  | JNull => JStr (user_name (user m))
  | nick => nick
  end.

(** The [display_avatar] property. *)
Definition display_avatar (m : GuildMember) : json :=
  match avatar m with
  | JNull =>
      match user_avatar (user m) with
      | Some a => JStr a
      | None => JNull
      end
  | a => a
  end.

(** [v.startswith("a_")]; a value that is not a string has no such method,
    which is not modelled. *)
Definition startswith_a (v : json) : result bool :=
  match v with
  | JStr s => Ok (String.prefix "a_" s)
  | _ => Raise NotModelled
  end.

(** [is_avatar_animated]. *)
Definition is_avatar_animated (m : GuildMember) (guild_only : bool)
    : result bool :=
  if guild_only then
    match avatar m with
    | JNull => Ok false
    | a => startswith_a a
    end
  else
    match display_avatar m with
    | JNull => Ok false
    | a => startswith_a a
    end.

(** [is_boosting]. *)
Definition is_boosting (m : GuildMember) : bool :=
  match premium_since m with
  | Some _ => true
  | None => false
  end.

End WithModels.

Arguments GuildMember M : clear implicits.

(** A small instance to build members from concrete payloads: a user is
    its name with its avatar, a timestamp is kept as its text. *)
Definition sample_member_models : MemberModels :=
  {| User := string * option string;
     Role := string;
     datetime := string;
     User_init := fun data =>
       match getitem data "username" with
       | Ok (JStr name) =>
           Ok (name,
               match getitem data "avatar" with
               | Ok (JStr a) => Some a
               | _ => None
               end)
       | Ok _ => Raise TypeError
       | Raise e => Raise e
       end;
     user_name := fst;
     user_avatar := snd;
     parse_iso_timestamp := fun v =>
       match v with
       | JStr s => Ok s
       | _ => Raise TypeError
       end |}.

Definition sample_get_role (id : Z) : option string :=
  if (id =? 10)%Z then Some "admin" else None.

Definition sample_member_payload : list (string * json) :=
  [("user", JDict [("username", JStr "ada"); ("avatar", JStr "a_1f")]);
   ("joined_at", JStr "2022-01-01T00:00:00+00:00");
   ("roles", JList [JStr "10"; JStr "20"])].

End Members.

(* ===================================================================== *)
(** * Properties of [Route]                                              *)
(* ===================================================================== *)

Section RouteFacts.
Import Py Ratelimits.

Lemma append_cons (c : ascii) (s t : string) :
  String c s ++ t = String c (s ++ t).
Proof. reflexivity. Qed.

Lemma append_nil_l (t : string) : "" ++ t = t.
Proof. reflexivity. Qed.


Lemma append_assoc (s1 s2 s3 : string) : (s1 ++ s2) ++ s3 = s1 ++ (s2 ++ s3).
Proof.
  induction s1 as [|c s1 IH]; [reflexivity|].
  rewrite !append_cons. now f_equal.
Qed.



(** Rendering is compositional after a prefix that renders on its own. *)
Lemma render_prefix params (s : string) (n : nat) :
  forall pre field out,
    (String.length pre <= n)%nat ->
    render params field pre = Ok out ->
    render params field (pre ++ s)
    = bind (render params None s) (fun o => Ok (out ++ o)).
Proof.
  assert (Hnil : forall field out,
             render params field "" = Ok out ->
             render params field ("" ++ s)
             = bind (render params None s) (fun o => Ok (out ++ o))).
  { intros field out Hr. destruct field; simpl in Hr; [discriminate|].
    injection Hr as <-. rewrite append_nil_l.
    now destruct (render params None s). }
  induction n as [|n IH]; intros pre field out Hn Hr.
  - destruct pre; [now apply Hnil | simpl in Hn; lia].
  - destruct pre as [|c rest]; [now apply Hnil|].
    simpl in Hn. rewrite append_cons. destruct field as [name|].
    + simpl in Hr |- *. destruct (Ascii.eqb c "}").
      * destruct (get_field params name) as [v|e]; simpl in Hr |- *;
          [|discriminate].
        destruct (render params None rest) as [o|e] eqn:Hrest; simpl in Hr;
          [|discriminate].
        injection Hr as <-.
        rewrite (IH rest None o) by (lia || assumption).
        destruct (render params None s); simpl; [|reflexivity].
        now rewrite append_assoc.
      * destruct (is_field_special c); [discriminate|].
        apply IH; [lia | assumption].
    + simpl in Hr |- *. destruct (Ascii.eqb c "{").
      * destruct rest as [|c' rest']; [discriminate|]. simpl in Hn.
        rewrite append_cons. destruct (Ascii.eqb c' "{").
        -- destruct (render params None rest') as [o|e] eqn:Hrest;
             simpl in Hr; [|discriminate].
           injection Hr as <-.
           rewrite (IH rest' None o) by (lia || assumption).
           now destruct (render params None s).
        -- rewrite <- append_cons.
           apply IH; [simpl; lia | assumption].
      * destruct (Ascii.eqb c "}").
        -- destruct rest as [|c' rest']; [discriminate|]. simpl in Hn.
           rewrite append_cons.
           destruct c' as [[] [] [] [] [] [] [] []]; try discriminate.
           destruct (render params None rest') as [o|e] eqn:Hrest;
             simpl in Hr; [|discriminate].
           injection Hr as <-.
           rewrite (IH rest' None o) by (lia || assumption).
           now destruct (render params None s).
        -- destruct (render params None rest) as [o|e] eqn:Hrest;
             simpl in Hr; [|discriminate].
           injection Hr as <-.
           rewrite (IH rest None o) by (lia || assumption).
           now destruct (render params None s).
Qed.


(** The channel component of the grouping key is the text [None] for a
    route built without a [channel_id]. *)
Lemma ratelimit_path_no_channel (r : Route) :
  params r !! "channel_id" = None ->
  ratelimit_path r
  = method r ++ "-" ++ path r ++ "-"
      ++ str (dict_get (params r) "guild_id") ++ ":None".
Proof. intros H. unfold ratelimit_path, dict_get at 2. now rewrite H. Qed.

(** C7.  The route [GET /guilds/{guild_id}/roles] built with
    [guild_id=42] has the url [<base>/guilds/42/roles], and its grouping
    key is [GET-/guilds/{guild_id}/roles-42:None]: the [channel_id] that
    was not supplied is rendered as [None]. *)
Theorem roles_route_url_and_ratelimit_path :
  exists r,
    Route_init "GET" "/guilds/{guild_id}/roles" true
      {["guild_id" := PyInt 42]} = Ok r
    /\ url r = Ok (REST_BASE_URL ++ "/guilds/42/roles")
    /\ url r = Ok "https://discord.com/api/v10/guilds/42/roles"
    /\ params r !! "channel_id" = None
    /\ ratelimit_path r = "GET-/guilds/{guild_id}/roles-42:None".
Proof. eexists. split; [reflexivity|]. repeat split; vm_compute; reflexivity. Qed.




End RouteFacts.

(* ===================================================================== *)
(** * Properties of [RatelimitHandler]                                   *)
(* ===================================================================== *)

Section RegistryFacts.
Import Py Asyncio Ratelimits.

(** Only [reset_global] opens the global gate. *)
Lemma exec_keeps_gate_closed (cs : list call) :
  forall h,
    ~ In ResetGlobal cs ->
    global_ratelimit_cleared h = false ->
    global_ratelimit_cleared (exec_all h cs) = false.
Proof.
  induction cs as [|c cs IH]; intros h Hno Hclosed; [exact Hclosed|].
  simpl. apply IH.
  - intros Hin. apply Hno. now right.
  - destruct c as [| | |p|p b]; simpl; try assumption; try reflexivity.
    + exfalso. apply Hno. now left.
    + unfold get_lock. now destruct (locks h !! lock_key h p).
Qed.

(** C9.  [clear] empties the lock map and the bucket map and leaves the
    global gate as it was.  A gate closed by [set_global] stays closed
    through [clear] and through any further calls other than
    [reset_global]: [wait_until_global_reset] suspends; after
    [reset_global] it returns. *)
Theorem clear_leaves_global_gate
    (h : RatelimitHandler) (before after : list call) :
  ~ In ResetGlobal before ->
  ~ In ResetGlobal after ->
  (forall h0,
      locks (clear h0) = ∅
      /\ buckets (clear h0) = ∅
      /\ global_ratelimit_cleared (clear h0) = global_ratelimit_cleared h0
      /\ wait_until_global_reset (clear h0) = wait_until_global_reset h0)
  /\ (let closed := exec_all (set_global h) before in
      let later := exec_all (clear closed) after in
      wait_until_global_reset later = Suspends
      /\ wait_until_global_reset (reset_global later) = Returns).
Proof.
  intros Hb Ha. split.
  - intros h0. repeat split; reflexivity.
  - simpl. split; [|reflexivity].
    unfold wait_until_global_reset.
    rewrite exec_keeps_gate_closed; [reflexivity | assumption |].
    simpl. now apply exec_keeps_gate_closed.
Qed.

Lemma clear_leaves_global_gate_witness :
  (forall h0,
      locks (clear h0) = ∅
      /\ buckets (clear h0) = ∅
      /\ global_ratelimit_cleared (clear h0) = global_ratelimit_cleared h0
      /\ wait_until_global_reset (clear h0) = wait_until_global_reset h0)
  /\ (let closed :=
        exec_all (set_global RatelimitHandler_init)
          [GetLock "GET-/gateway-None:None";
           SetBucket "GET-/gateway-None:None" "abc"] in
      let later := exec_all (clear closed) [GetLock "GET-/gateway-None:None"; Clear] in
      wait_until_global_reset later = Suspends
      /\ wait_until_global_reset (reset_global later) = Returns).
Proof.
  apply (clear_leaves_global_gate RatelimitHandler_init
           [GetLock "GET-/gateway-None:None";
            SetBucket "GET-/gateway-None:None" "abc"]
           [GetLock "GET-/gateway-None:None"; Clear]).
  - simpl. intros [H|[H|[]]]; discriminate H.
  - simpl. intros [H|[H|[]]]; discriminate H.
Defined.

(** C2.  When the lock map has a lock under the grouping key [path],
    [set_bucket path bucket] stores that same lock under [bucket], removes
    the entry under [path], records the bucket of [path] and touches no
    lock object, so the lock is held afterwards iff it was held before;
    [get_lock path] then returns that lock, without creating one. *)
Theorem set_bucket_moves_lock
    (h : RatelimitHandler) (path bucket : string) (lock : nat) :
  locks h !! path = Some lock ->
  let h' := set_bucket h path bucket in
  locks h' !! bucket = Some lock
  /\ (path <> bucket -> locks h' !! path = None)
  /\ buckets h' !! path = Some bucket
  /\ lock_objs h' = lock_objs h
  /\ is_locked h' lock = is_locked h lock
  /\ get_lock h' path = (lock, h')
  /\ is_locked h' (fst (get_lock h' path)) = is_locked h lock.
Proof.
  intros Hl h'.
  assert (Hb : locks h' !! bucket = Some lock).
  { unfold h', set_bucket. simpl. rewrite Hl. apply lookup_insert_eq. }
  assert (Hm : buckets h' !! path = Some bucket).
  { unfold h', set_bucket. simpl. apply lookup_insert_eq. }
  assert (Hg : get_lock h' path = (lock, h')).
  { unfold get_lock, lock_key. rewrite Hm, Hb. reflexivity. }
  repeat split; try assumption.
  - intros Hne. unfold h', set_bucket. simpl. rewrite Hl.
    rewrite lookup_insert_ne by congruence. apply lookup_delete_eq.
  - now rewrite Hg.
Qed.

Lemma set_bucket_moves_lock_witness :
  let held :=
    {| global_ratelimit_cleared := true;
       locks := {["GET-/guilds/{guild_id}/roles-42:None" := 0%nat]};
       buckets := ∅;
       lock_objs := [{| locked := true; waiters := [] |}] |} in
  let h' := set_bucket held "GET-/guilds/{guild_id}/roles-42:None" "abc123" in
  locks h' !! "abc123" = Some 0%nat
  /\ ("GET-/guilds/{guild_id}/roles-42:None" <> "abc123"
      -> locks h' !! "GET-/guilds/{guild_id}/roles-42:None" = None)
  /\ buckets h' !! "GET-/guilds/{guild_id}/roles-42:None" = Some "abc123"
  /\ lock_objs h' = lock_objs held
  /\ is_locked h' 0 = is_locked held 0
  /\ get_lock h' "GET-/guilds/{guild_id}/roles-42:None" = (0%nat, h')
  /\ is_locked h' (fst (get_lock h' "GET-/guilds/{guild_id}/roles-42:None"))
     = is_locked held 0.
Proof.
  intros held.
  apply (set_bucket_moves_lock held
           "GET-/guilds/{guild_id}/roles-42:None" "abc123" 0%nat).
  vm_compute. reflexivity.
Defined.

End RegistryFacts.

(* ===================================================================== *)
(** * Mutual exclusion of the requests of one grouping key               *)
(* ===================================================================== *)

Section MutualExclusion.
Import Py Asyncio Ratelimits Requests.

(** C3, as the claim has it, fails: a request of the first descriptor
    holds the lock, the bucket of the grouping key is recorded, then
    recorded again with another id; a request of the second descriptor
    then gets a fresh lock and both requests are in the acquired state. *)
Lemma rebucketing_breaks_mutual_exclusion :
  ratelimit_path (two_routes 0) = ratelimit_path (two_routes 1)
  /\ two_routes 0 <> two_routes 1
  /\ let s := run two_routes System_init
                [Acquire 0; RecordBucket 0 "b1"; RecordBucket 0 "b2"; Acquire 1] in
     requests s !! 0%nat = Some (Holding 0)
     /\ requests s !! 1%nat = Some (Holding 1)
     /\ acquired s 0 /\ acquired s 1.
Proof.
  split; [reflexivity|]. split; [discriminate|].
  assert (H0 : requests (run two_routes System_init
                [Acquire 0; RecordBucket 0 "b1"; RecordBucket 0 "b2"; Acquire 1])
               !! 0%nat = Some (Holding 0)) by (vm_compute; reflexivity).
  assert (H1 : requests (run two_routes System_init
                [Acquire 0; RecordBucket 0 "b1"; RecordBucket 0 "b2"; Acquire 1])
               !! 1%nat = Some (Holding 1)) by (vm_compute; reflexivity).
  simpl. repeat split; try assumption; eexists; eassumption.
Qed.

End MutualExclusion.

Section SameBucket.
Import Py Asyncio Ratelimits Requests.

Variable route_of : nat -> Route.
Variables p bucket : string.
Hypothesis Hkey : forall r, ratelimit_path (route_of r) = p.

Lemma is_locked_insert_eq h (lock : nat) (l l' : Lock) :
  lock_objs h !! lock = Some l ->
  is_locked (with_lock_objs h (<[lock := l']> (lock_objs h))) lock = locked l'.
Proof.
  intros Hl. unfold is_locked. simpl.
  rewrite list_lookup_insert_eq; [reflexivity|].
  eapply lookup_lt_Some; eassumption.
Qed.

Lemma is_locked_insert_ne h (lock lock' : nat) (l' : Lock) :
  lock <> lock' ->
  is_locked (with_lock_objs h (<[lock := l']> (lock_objs h))) lock'
  = is_locked h lock'.
Proof.
  intros Hne. unfold is_locked. simpl.
  now rewrite list_lookup_insert_ne.
Qed.

Lemma consistent_init : consistent p bucket System_init.
Proof.
  constructor; simpl.
  - now left.
  - intros r st H. rewrite lookup_empty in H. discriminate.
  - intros _ _. apply lookup_empty.
  - intros r lock H. rewrite lookup_empty in H. discriminate.
  - intros r1 r2 l1 l2 H. rewrite lookup_empty in H. discriminate.
Qed.

(** No request holds a lock that is free. *)
Lemma free_lock_not_held s (lock : nat) (l : Lock) :
  consistent p bucket s ->
  locks (registry s) !! lock_key (registry s) p = Some lock ->
  lock_objs (registry s) !! lock = Some l ->
  locked l = false ->
  forall r lock', requests s !! r <> Some (Holding lock').
Proof.
  intros Hc Hk Hl Hfree r lock' Hr.
  pose proof (cons_lock _ _ _ Hc _ _ Hr) as Hsame. simpl in Hsame.
  rewrite Hk in Hsame. injection Hsame as ->.
  pose proof (cons_locked _ _ _ Hc _ _ Hr) as Hlocked.
  unfold is_locked in Hlocked. rewrite Hl in Hlocked. congruence.
Qed.

Lemma consistent_acquire s r :
  consistent p bucket s -> consistent p bucket (acquire_route route_of s r).
Proof.
  intros Hc. unfold acquire_route.
  destruct (requests s !! r) eqn:Hidle; [assumption|].
  rewrite Hkey. unfold get_lock.
  destruct (locks (registry s) !! lock_key (registry s) p) as [lock|] eqn:Hk.
  - destruct (lock_objs (registry s) !! lock) as [l|] eqn:Hl; [|assumption].
    unfold acquire.
    destruct (locked l) eqn:Hlocked; [|destruct (waiters l) eqn:Hw].
    + (* the lock is held: the request queues *)
      constructor; simpl.
      * apply Hc.
      * intros r' st. rewrite lookup_insert. case_decide.
        -- intros [= <-]. exact Hk.
        -- apply (cons_lock _ _ _ Hc).
      * apply Hc.
      * intros r' lock'. rewrite lookup_insert. case_decide; [discriminate|].
        intros Hr'. destruct (decide (lock = lock')) as [<-|Hne].
        -- erewrite is_locked_insert_eq by eassumption. reflexivity.
        -- rewrite is_locked_insert_ne by assumption.
           eapply (cons_locked _ _ _ Hc); eassumption.
      * intros r1 r2 l1 l2. rewrite !lookup_insert.
        repeat case_decide; try discriminate.
        apply (cons_unique _ _ _ Hc).
    + (* the lock is free and nobody queues: the request takes it *)
      pose proof (free_lock_not_held s lock l Hc Hk Hl Hlocked) as Hnone.
      constructor; simpl.
      * apply Hc.
      * intros r' st. rewrite lookup_insert. case_decide.
        -- intros [= <-]. exact Hk.
        -- apply (cons_lock _ _ _ Hc).
      * apply Hc.
      * intros r' lock'. rewrite lookup_insert. case_decide.
        -- intros [= <-]. erewrite is_locked_insert_eq by eassumption.
           reflexivity.
        -- intros Hr'. exfalso. eapply Hnone; eassumption.
      * intros r1 r2 l1 l2. rewrite !lookup_insert.
        repeat case_decide; try congruence.
        -- intros _ Hr'. exfalso. eapply Hnone; eassumption.
        -- intros Hr'. exfalso. eapply Hnone; eassumption.
        -- intros Hr'. exfalso. eapply Hnone; eassumption.
    + (* the lock is free but has a queue: the request joins it *)
      constructor; simpl.
      * apply Hc.
      * intros r' st. rewrite lookup_insert. case_decide.
        -- intros [= <-]. exact Hk.
        -- apply (cons_lock _ _ _ Hc).
      * apply Hc.
      * intros r' lock'. rewrite lookup_insert. case_decide; [discriminate|].
        intros Hr'. exfalso.
        eapply (free_lock_not_held s lock l); eassumption.
      * intros r1 r2 l1 l2. rewrite !lookup_insert.
        repeat case_decide; try discriminate.
        apply (cons_unique _ _ _ Hc).
  - (* no lock yet: a fresh one is stored and taken *)
    assert (Hnone : forall r' st, requests s !! r' <> Some st).
    { intros r' st Hr'. pose proof (cons_lock _ _ _ Hc _ _ Hr') as Hsome.
      simpl in Hsome. congruence. }
    simpl. rewrite lookup_app_r by lia. rewrite Nat.sub_diag. simpl.
    constructor; simpl.
    + apply Hc.
    + intros r' st. rewrite lookup_insert. case_decide.
      * intros [= <-]. simpl. unfold lock_key at 1. simpl.
        fold (lock_key (registry s) p). apply lookup_insert_eq.
      * intros Hr'. exfalso. eapply Hnone; eassumption.
    + intros Hb Hne. rewrite lookup_insert_ne; [now apply Hc|].
      unfold lock_key. rewrite Hb. congruence.
    + intros r' lock'. rewrite lookup_insert. case_decide.
      * intros [= <-]. unfold is_locked. simpl.
        rewrite list_lookup_insert_eq by (rewrite length_app; simpl; lia).
        reflexivity.
      * intros Hr'. exfalso. eapply Hnone; eassumption.
    + intros r1 r2 l1 l2. rewrite !lookup_insert.
      repeat case_decide; try congruence.
      * intros _ Hr'. exfalso. eapply Hnone; eassumption.
      * intros Hr'. exfalso. eapply Hnone; eassumption.
      * intros Hr'. exfalso. eapply Hnone; eassumption.
Qed.

Lemma consistent_resume s r :
  consistent p bucket s -> consistent p bucket (resume_route s r).
Proof.
  intros Hc. unfold resume_route.
  destruct (requests s !! r) as [[lock|lock]|] eqn:Hr; try assumption.
  destruct (lock_objs (registry s) !! lock) as [l|] eqn:Hl; [|assumption].
  unfold resume.
  destruct (locked l) eqn:Hlocked; [assumption|].
  destruct (waiters l) as [|r' ws]; [assumption|].
  destruct (Nat.eqb r r'); [|assumption].
  pose proof (cons_lock _ _ _ Hc _ _ Hr) as Hk. simpl in Hk.
  pose proof (free_lock_not_held s lock l Hc Hk Hl Hlocked) as Hnone.
  constructor; simpl.
  - apply Hc.
  - intros r0 st. rewrite lookup_insert. case_decide.
    + intros [= <-]. exact Hk.
    + apply (cons_lock _ _ _ Hc).
  - apply Hc.
  - intros r0 lock0. rewrite lookup_insert. case_decide.
    + intros [= <-]. erewrite is_locked_insert_eq by eassumption.
      reflexivity.
    + intros Hr0. exfalso. eapply Hnone; eassumption.
  - intros r1 r2 l1 l2. rewrite !lookup_insert.
    repeat case_decide; try congruence.
    + intros _ Hr0. exfalso. eapply Hnone; eassumption.
    + intros Hr0. exfalso. eapply Hnone; eassumption.
    + intros Hr0. exfalso. eapply Hnone; eassumption.
Qed.

Lemma consistent_release s r :
  consistent p bucket s -> consistent p bucket (release_route s r).
Proof.
  intros Hc. unfold release_route.
  destruct (requests s !! r) as [[lock|lock]|] eqn:Hr; try assumption.
  destruct (lock_objs (registry s) !! lock) as [l|] eqn:Hl; [|assumption].
  unfold release. destruct (locked l) eqn:Hlocked; [|assumption].
  constructor; simpl.
  - apply Hc.
  - intros r0 st. rewrite lookup_delete. case_decide; [discriminate|].
    apply (cons_lock _ _ _ Hc).
  - apply Hc.
  - intros r0 lock0. rewrite lookup_delete. case_decide; [discriminate|].
    intros Hr0. exfalso.
    pose proof (cons_unique _ _ _ Hc _ _ _ _ Hr Hr0). congruence.
  - intros r1 r2 l1 l2. rewrite !lookup_delete.
    repeat case_decide; try discriminate.
    apply (cons_unique _ _ _ Hc).
Qed.

Lemma consistent_set_bucket s r :
  consistent p bucket s ->
  consistent p bucket (step route_of s (RecordBucket r bucket)).
Proof.
  intros Hc. simpl. rewrite Hkey.
  assert (Hkey' : lock_key (set_bucket (registry s) p bucket) p = bucket).
  { unfold lock_key, set_bucket. simpl. now rewrite lookup_insert_eq. }
  constructor; simpl.
  - right. apply lookup_insert_eq.
  - intros r0 st Hr0.
    pose proof (cons_lock _ _ _ Hc _ _ Hr0) as Hk. simpl in Hk.
    unfold lock_key at 1. simpl. rewrite lookup_insert_eq.
    unfold lock_key in Hk.
    destruct (cons_bucket _ _ _ Hc) as [Hb|Hb]; simpl in Hb; rewrite Hb in Hk.
    + rewrite Hk. apply lookup_insert_eq.
    + destruct (locks (registry s) !! p) as [lock|] eqn:Hp; [|exact Hk].
      destruct (decide (p = bucket)) as [<-|Hne].
      * rewrite lookup_insert_eq. congruence.
      * pose proof (cons_fallback _ _ _ Hc Hb Hne) as Hnone. simpl in Hnone.
        congruence.
  - intros _ Hne.
    destruct (locks (registry s) !! p) as [lock|] eqn:Hp; [|exact Hp].
    rewrite lookup_insert_ne by congruence. apply lookup_delete_eq.
  - intros r0 lock0 Hr0. apply (cons_locked _ _ _ Hc _ _ Hr0).
  - apply (cons_unique _ _ _ Hc).
Qed.

Lemma consistent_run (ops : list op) :
  forall s,
    (forall r b, In (RecordBucket r b) ops -> b = bucket) ->
    consistent p bucket s ->
    consistent p bucket (run route_of s ops).
Proof.
  induction ops as [|o ops IH]; intros s Hb Hc; [exact Hc|].
  simpl. apply IH.
  - intros r b Hin. apply (Hb r b). now right.
  - destruct o as [r|r|r|r b]; simpl.
    + now apply consistent_acquire.
    + now apply consistent_resume.
    + now apply consistent_release.
    + rewrite (Hb r b) by now left. now apply consistent_set_bucket.
Qed.

(** C3, amended.  As long as every [set_bucket] call for the shared
    grouping key records the same bucket id, the requests of the
    descriptors that share the key all resolve to one lock, and at most
    one of them is in the acquired state, whatever the order of the
    acquisitions, releases and [set_bucket] calls. *)
Theorem mutual_exclusion_with_one_bucket (ops : list op) :
  (forall r b, In (RecordBucket r b) ops -> b = bucket) ->
  let s := run route_of System_init ops in
  (forall r1 r2,
      fst (get_lock (registry s) (ratelimit_path (route_of r1)))
      = fst (get_lock (registry s) (ratelimit_path (route_of r2))))
  /\ (forall r st,
         requests s !! r = Some st ->
         lock_of st = fst (get_lock (registry s) (ratelimit_path (route_of r))))
  /\ (forall r1 r2, acquired s r1 -> acquired s r2 -> r1 = r2).
Proof.
  intros Hb s.
  assert (Hc : consistent p bucket s).
  { apply consistent_run; [assumption | apply consistent_init]. }
  split; [|split].
  - intros r1 r2. now rewrite !Hkey.
  - intros r st Hr. rewrite Hkey. unfold get_lock.
    now rewrite (cons_lock _ _ _ Hc _ _ Hr).
  - intros r1 r2 [l1 H1] [l2 H2]. eapply (cons_unique _ _ _ Hc); eassumption.
Qed.

End SameBucket.

Section SameBucketWitness.
Import Py Asyncio Ratelimits Requests.

Lemma mutual_exclusion_with_one_bucket_witness :
  let s := run two_routes System_init
             [Acquire 0; RecordBucket 0 "b1"; Acquire 1; RecordBucket 0 "b1";
              Release 0; Resume 1] in
  (forall r1 r2,
      fst (get_lock (registry s) (ratelimit_path (two_routes r1)))
      = fst (get_lock (registry s) (ratelimit_path (two_routes r2))))
  /\ (forall r st,
         requests s !! r = Some st ->
         lock_of st = fst (get_lock (registry s) (ratelimit_path (two_routes r))))
  /\ (forall r1 r2, acquired s r1 -> acquired s r2 -> r1 = r2).
Proof.
  apply (mutual_exclusion_with_one_bucket two_routes
           "GET-/guilds/{guild_id}/roles-42:None" "b1").
  - intros [|r]; reflexivity.
  - simpl. intros r b [H|[H|[H|[H|[H|[H|[]]]]]]]; congruence.
Defined.
End SameBucketWitness.

(* ===================================================================== *)
(** * Properties of [DispatchHandler]: single events                     *)
(* ===================================================================== *)

Section HandleFacts.
Import Py Asyncio Dispatch.
Context {M : Models}.
Local Open Scope list_scope.

Lemma count_log p (o : obs) (h : DispatchHandler M) :
  count p (log o h) = (count p h + (if p o then 1 else 0))%nat.
Proof.
  unfold count, log. simpl. rewrite filter_app, length_app. f_equal.
  rewrite filter_cons, filter_nil.
  destruct (p o); reflexivity.
Qed.

(** The handlers write nothing to the log themselves. *)
Lemma on_ready_trace (h : DispatchHandler M) shard data :
  trace (fst (on_ready h shard data)) = trace h.
Proof.
  unfold on_ready.
  destruct (bind (getitem data "user") ClientUser_init); [|reflexivity].
  destruct (bind (getitem data "guilds") len); [|reflexivity].
  simpl. destruct (ready_task h); reflexivity.
Qed.

Lemma on_guild_create_trace (h : DispatchHandler M) shard data :
  trace (fst (on_guild_create h shard data)) = trace h.
Proof.
  unfold on_guild_create.
  destruct (Guild_init data) as [g|]; [|reflexivity].
  destruct (unavailable g); simpl.
  - destruct (guild_create_waiter h) as [w|]; [|reflexivity].
    destruct (futures h !! w) as [[| |]|]; reflexivity.
  - destruct (guild_create_waiter h) as [w|]; [|reflexivity].
    destruct (futures h !! w) as [[| |]|]; reflexivity.
Qed.

(** What one call of [handle] adds to the log. *)
Lemma handle_trace (h : DispatchHandler M) shard title data :
  trace (fst (handle h shard title data))
  = trace h
    ++ (if debug_events h
        then [Invoked (GatewayDispatch shard title data)] else [])
    ++ match _handlers !! title with
       | Some f => [Entered f shard]
       | None => []
       end.
Proof.
  unfold handle.
  destruct (_handlers !! title) as [f|].
  - destruct f; simpl; rewrite ?on_ready_trace, ?on_guild_create_trace;
      destruct (debug_events h); simpl; rewrite <- ?app_assoc; reflexivity.
  - destruct (debug_events h); simpl; rewrite ?app_nil_r; reflexivity.
Qed.

(** C6.  For a title that is not in the handler table, [handle] returns
    without an exception and enters no handler: all it does is the debug
    emission.  With [debug_events] on, one call of [handle] logs exactly
    one raw-dispatch event, as the first thing it does, whether or not
    the title has a handler. *)
Theorem handle_unknown_title_and_debug
    (h : DispatchHandler M) (shard : Shard) (title : string) (data : json) :
  (_handlers !! title = None ->
     handle h shard title data
     = (if debug_events h
        then invoke h (GatewayDispatch shard title data) else h, None)
     /\ count is_entered (fst (handle h shard title data)) = count is_entered h)
  /\ (debug_events h = true ->
      count is_raw_dispatch (fst (handle h shard title data))
      = S (count is_raw_dispatch h)
      /\ trace (fst (handle h shard title data))
         = trace h
           ++ Invoked (GatewayDispatch shard title data)
           :: match _handlers !! title with
              | Some f => [Entered f shard]
              | None => []
              end).
Proof.
  split.
  - intros Hnone. split.
    + unfold handle. now rewrite Hnone.
    + unfold count. rewrite handle_trace, Hnone, app_nil_r.
      destruct (debug_events h); [|now rewrite app_nil_r].
      rewrite filter_app, length_app. simpl. lia.
  - intros Hdebug. split.
    + unfold count. rewrite handle_trace, Hdebug.
      rewrite !filter_app, !length_app.
      destruct (_handlers !! title); simpl; lia.
    + rewrite handle_trace, Hdebug. reflexivity.
Qed.

Lemma handlers_guild_create :
  _handlers !! "GUILD_CREATE" = Some on_guild_create_handler.
Proof. reflexivity. Qed.

Lemma handlers_ready : _handlers !! "READY" = Some on_ready_handler.
Proof. reflexivity. Qed.

(** [handle] differs from the handler it calls by the log only. *)
Lemma handle_guild_create (h : DispatchHandler M) shard data :
  exists h0,
    handle h shard "GUILD_CREATE" data = on_guild_create h0 shard data
    /\ cache h0 = cache h /\ waits h0 = waits h.
Proof.
  unfold handle. rewrite handlers_guild_create. simpl.
  eexists. split; [reflexivity|]. now destruct (debug_events h).
Qed.

(** The only exception [on_guild_create] lets through is that of the
    [Guild] constructor: [set_result] is never called on a future that is
    done. *)
Lemma on_guild_create_exn (h : DispatchHandler M) shard data :
  snd (on_guild_create h shard data)
  = match Guild_init data with
    | Ok _ => None
    | Raise e => Some e
    end.
Proof.
  unfold on_guild_create.
  destruct (Guild_init data) as [g|]; [|reflexivity].
  destruct (unavailable g); simpl.
  - destruct (guild_create_waiter h) as [w|]; [|reflexivity].
    destruct (futures h !! w) as [[| |]|]; reflexivity.
  - destruct (guild_create_waiter h) as [w|]; [|reflexivity].
    destruct (futures h !! w) as [[| |]|]; reflexivity.
Qed.

(** C5.  Handling a GUILD_CREATE payload whose guild is unavailable
    leaves the cache as it was; handling one whose guild is available adds
    the guild to the cache; in both cases a waiter that is armed and
    unresolved is resolved with the guild. *)
Theorem guild_create_cache_and_waiter
    (h : DispatchHandler M) (shard : Shard) (data : json) (g : Guild) :
  Guild_init data = Ok g ->
  let h' := fst (handle h shard "GUILD_CREATE" data) in
  snd (handle h shard "GUILD_CREATE" data) = None
  /\ (unavailable g = true -> cache h' = cache h)
  /\ (unavailable g = false ->
      cache h' = add_guild (cache h) g
      /\ guilds (cache h') !! guild_id g = Some g)
  /\ (forall w,
        guild_create_waiter h = Some w ->
        futures h !! w = Some Pending ->
        futures h' !! w = Some (Resolved g)).
Proof.
  intros Hg h'.
  destruct (handle_guild_create h shard data) as (h0 & Hh & Hc & Hw).
  unfold h'. rewrite Hh. clear h' Hh.
  unfold waits in Hw. injection Hw as _ _ _ Hwaiter _ Hfut _ _.
  split; [|split; [|split]].
  - rewrite on_guild_create_exn. now rewrite Hg.
  - intros Hu. unfold on_guild_create. rewrite Hg, Hu.
    destruct (guild_create_waiter h0) as [w|]; [|exact Hc].
    destruct (futures h0 !! w) as [[| |]|]; exact Hc.
  - intros Hu.
    assert (Hcache : cache (fst (on_guild_create h0 shard data))
                     = add_guild (cache h) g).
    { unfold on_guild_create. rewrite Hg, Hu. simpl.
      destruct (guild_create_waiter h0) as [w|]; simpl; [|now rewrite Hc].
      destruct (futures h0 !! w) as [[| |]|]; simpl; now rewrite Hc. }
    split; [exact Hcache|]. rewrite Hcache. apply lookup_insert_eq.
  - intros w Hsome Hpending. rewrite <- Hwaiter in Hsome.
    rewrite <- Hfut in Hpending.
    assert (Hlt : (w < length (futures h0))%nat)
      by (eapply lookup_lt_Some; eassumption).
    unfold on_guild_create. rewrite Hg.
    destruct (unavailable g); simpl; rewrite Hsome; simpl;
      rewrite Hpending; simpl; now apply list_lookup_insert_eq.
Qed.

End HandleFacts.

(* ===================================================================== *)
(** * A payload that finds the waiter already resolved                   *)
(* ===================================================================== *)

Section ResolvedOnce.
Import Py Asyncio Dispatch.
Context {M : Models}.
Local Open Scope list_scope.

Lemma readiness_log (o : obs) (h : DispatchHandler M) :
  readiness (log o h)
  = readiness h ++ (if is_readiness o then [o] else []).
Proof.
  unfold readiness, log. simpl. rewrite filter_app. f_equal.
  destruct (is_readiness o) eqn:Ho.
  - rewrite filter_cons_True by assumption. reflexivity.
  - rewrite filter_cons_False by congruence. reflexivity.
Qed.

Lemma waits_rebuild (h1 h2 : DispatchHandler M) :
  waits h1 = waits h2 ->
  h1 = rebuild h2 (cache h1) (client_user h1) (trace h1).
Proof.
  unfold waits, rebuild. intros [= H1 H2 H3 H4 H5 H6 H7 H8].
  destruct h1; simpl in *. congruence.
Qed.

Lemma prepare_ready_same (h1 h2 : DispatchHandler M) (i : nat) :
  same_waits h1 h2 ->
  same_waits (_prepare_ready h1 i) (_prepare_ready h2 i).
Proof.
  intros [Hw Hr]. rewrite (waits_rebuild h1 h2 Hw).
  unfold same_waits, readiness in *. revert Hr.
  generalize (trace h1) (cache h1) (client_user h1). intros tr c u.
  clear Hw h1.
  destruct h2 as [T dbg c2 u2 conn waiter rt futs ts clock tr2].
  unfold _prepare_ready, prepare_ready_arm, prepare_ready_exit, invoke,
    set_pc, rebuild. simpl. intros Hr.
  destruct (ts !! i) as [[shard p]|]; simpl; [|now split].
  assert (Hlog : forall o,
             filter (fun o => is_readiness o = true) (tr ++ [o])
             = filter (fun o => is_readiness o = true) (tr2 ++ [o])).
  { intros o. rewrite !filter_app. now f_equal. }
  destruct p as [| |fut d|]; simpl.
  - destruct shard; simpl.
    + destruct (Qle_bool T 0); simpl; split;
        (reflexivity || apply Hlog || exact Hr).
    + destruct conn; simpl; [destruct (Qle_bool T 0)|]; simpl; split;
        (reflexivity || apply Hlog || exact Hr).
  - destruct conn; simpl; [destruct (Qle_bool T 0)|]; simpl;
      destruct shard; simpl; split;
      (reflexivity || apply Hlog || exact Hr).
  - destruct (futs !! fut) as [[| |]|]; simpl;
      try (split; (reflexivity || exact Hr)).
    + destruct (Qle_bool d clock); simpl; destruct shard; simpl; split;
        (reflexivity || apply Hlog || exact Hr).
    + destruct (Qle_bool T 0); simpl; destruct shard;
        simpl; split; (reflexivity || apply Hlog || exact Hr).
  - split; (reflexivity || exact Hr).
Qed.

Lemma handle_same (h1 h2 : DispatchHandler M) shard title data :
  same_waits h1 h2 ->
  same_waits (fst (handle h1 shard title data))
             (fst (handle h2 shard title data)).
Proof.
  intros [Hw Hr]. rewrite (waits_rebuild h1 h2 Hw).
  unfold same_waits, readiness in *. revert Hr.
  generalize (trace h1) (cache h1) (client_user h1). intros tr c u.
  clear Hw h1.
  destruct h2 as [T dbg c2 u2 conn waiter rt futs ts clock tr2].
  unfold handle, rebuild, invoke. simpl. intros Hr.
  assert (Hlog : forall l,
             filter (fun o => is_readiness o = true) (tr ++ l)
             = filter (fun o => is_readiness o = true) (tr2 ++ l)).
  { intros l. rewrite !filter_app. now f_equal. }
  destruct (_handlers !! title) as [[|]|]; simpl.
  - unfold on_ready.
    destruct (bind (getitem data "user") ClientUser_init) as [user|];
      [destruct (bind (getitem data "guilds") len)|];
      destruct dbg; simpl; try destruct rt; simpl; split;
      rewrite <- ?app_assoc; (reflexivity || apply Hlog).
  - unfold on_guild_create.
    destruct (Guild_init data) as [g|]; destruct dbg; simpl;
      try (split; rewrite <- ?app_assoc; (reflexivity || apply Hlog));
      destruct (unavailable g); simpl;
      destruct waiter as [w|]; simpl;
      try (destruct (futs !! w) as [[| |]|]; simpl);
      split; rewrite <- ?app_assoc; (reflexivity || apply Hlog).
  - destruct dbg; simpl; split; (reflexivity || apply Hlog || exact Hr).
Qed.

Lemma step_same (h1 h2 : DispatchHandler M) (a : action) :
  same_waits h1 h2 -> same_waits (step h1 a) (step h2 a).
Proof.
  intros Hs. destruct a as [shard title data| |t|i]; simpl.
  - now apply handle_same.
  - destruct Hs as [Hw Hr]. rewrite (waits_rebuild h1 h2 Hw).
    split; [reflexivity | exact Hr].
  - destruct Hs as [Hw Hr]. rewrite (waits_rebuild h1 h2 Hw).
    unfold rebuild at 1. simpl.
    destruct (Qle_bool (now h2) t); (split; [reflexivity | exact Hr]).
  - now apply prepare_ready_same.
Qed.

Lemma run_same (acts : list action) :
  forall h1 h2 : DispatchHandler M,
    same_waits h1 h2 -> same_waits (run h1 acts) (run h2 acts).
Proof.
  induction acts as [|a acts IH]; intros h1 h2 Hs; [exact Hs|].
  simpl. apply IH. now apply step_same.
Qed.

(** A future that has a result keeps it through [on_guild_create]. *)
Lemma on_guild_create_keeps_result (h : DispatchHandler M) shard data f v :
  futures h !! f = Some (Resolved v) ->
  futures (fst (on_guild_create h shard data)) !! f = Some (Resolved v).
Proof.
  intros Hf. unfold on_guild_create.
  destruct (Guild_init data) as [g|]; [|exact Hf].
  assert (Hgoal : forall h1 : DispatchHandler M,
             futures h1 = futures h ->
             futures (fst (match guild_create_waiter h1 with
                           | Some w =>
                               match futures h1 !! w with
                               | Some fut =>
                                   if done fut then (h1, None)
                                   else
                                     match set_result fut g with
                                     | Ok fut' =>
                                         (set_futures (<[w := fut']> (futures h1)) h1,
                                          None)
                                     | Raise e => (h1, Some e)
                                     end
                               | None => (h1, None)
                               end
                           | None => (h1, @None exn)
                           end)) !! f = Some (Resolved v)).
  { intros h1 Heq. rewrite Heq.
    destruct (guild_create_waiter h1) as [w|]; simpl; [|now rewrite Heq].
    destruct (futures h !! w) as [[| |]|] eqn:Hw; simpl; try now rewrite Heq.
    rewrite list_lookup_insert_ne; [exact Hf|]. congruence. }
  destruct (unavailable g); apply Hgoal; reflexivity.
Qed.

(** C10.  [on_guild_create] lets no exception through but that of the
    [Guild] constructor, and a future that has a result keeps it.  When
    the payload finds the current waiter done (resolved by an earlier
    payload, the waiting task not having armed a fresh one yet), nothing
    that the quiescence waits read is changed, so that every continuation
    goes on exactly as it would have without this payload: the same
    futures, the same deadlines, the same readiness events. *)
Theorem guild_create_on_resolved_waiter
    (h : DispatchHandler M) (shard : Shard) (data : json)
    (w : nat) (fut : Future Guild) :
  guild_create_waiter h = Some w ->
  futures h !! w = Some fut ->
  done fut = true ->
  let h' := fst (handle h shard "GUILD_CREATE" data) in
  snd (handle h shard "GUILD_CREATE" data)
  = match Guild_init data with
    | Ok _ => None
    | Raise e => Some e
    end
  /\ futures h' = futures h
  /\ same_waits h' h
  /\ (forall acts, same_waits (run h' acts) (run h acts))
  /\ (forall h0 f v,
        futures h0 !! f = Some (Resolved v) ->
        futures (fst (handle h0 shard "GUILD_CREATE" data)) !! f
        = Some (Resolved v)).
Proof.
  intros Hw Hf Hdone h'.
  assert (Hsame : same_waits h' h).
  { unfold h', handle. rewrite handlers_guild_create. simpl.
    unfold on_guild_create.
    destruct (Guild_init data) as [g|]; simpl.
    - destruct (unavailable g); simpl; destruct (debug_events h) eqn:Hd;
        unfold invoke; simpl; rewrite Hw; simpl; rewrite Hf, Hdone; simpl;
        (split; [unfold waits; simpl; now rewrite ?Hd, ?Hw
                | unfold readiness; simpl; rewrite ?filter_app; simpl;
                  now rewrite ?app_nil_r]).
    - destruct (debug_events h) eqn:Hd; unfold invoke; simpl;
        (split; [unfold waits; simpl; now rewrite ?Hd, ?Hw
                | unfold readiness; simpl; rewrite ?filter_app; simpl;
                  now rewrite ?app_nil_r]). }
  split; [|split; [|split; [|split]]].
  - destruct (handle_guild_create h shard data) as (h0 & -> & _ & _).
    apply on_guild_create_exn.
  - destruct Hsame as [Hwaits _]. unfold waits in Hwaits. congruence.
  - exact Hsame.
  - intros acts. apply run_same, Hsame.
  - intros h0 f v Hres.
    destruct (handle_guild_create h0 shard data) as (h1 & -> & _ & Hw1).
    apply on_guild_create_keeps_result.
    unfold waits in Hw1. congruence.
Qed.

End ResolvedOnce.

(* ===================================================================== *)
(** * The aggregate wait over whole runs                                 *)
(* ===================================================================== *)

Section AggregateReady.
Import Py Asyncio Dispatch.
Context {M : Models}.
Local Open Scope list_scope.

(** Replacing one element changes a count by what the element counts. *)
Lemma count_insert {A} (p : A -> bool) (l : list A) :
  forall (i : nat) (x y : A),
    l !! i = Some x ->
    (length (filter (fun a => p a = true) (<[i := y]> l))
     + (if p x then 1 else 0)
     = length (filter (fun a => p a = true) l)
       + (if p y then 1 else 0))%nat.
Proof.
  induction l as [|a l IH]; intros i x y Hi; [discriminate|].
  destruct i as [|i]; simpl in Hi.
  - injection Hi as ->. simpl. rewrite !filter_cons.
    destruct (p x), (p y); simpl; lia.
  - simpl. rewrite !filter_cons. specialize (IH i x y Hi).
    destruct (decide (p a = true)); simpl; lia.
Qed.

Lemma prepare_ready_effect (h : DispatchHandler M) (i : nat) :
  task_effect h (_prepare_ready h i) i.
Proof.
  unfold _prepare_ready.
  destruct (tasks h !! i) as [t|] eqn:Ht; [|now apply effect_none].
  assert (Harm : is_finished t = false ->
                 task_effect h (prepare_ready_arm h i t) i).
  { intros Hu. unfold prepare_ready_arm.
    destruct (Qle_bool (ready_timeout h) 0).
    - apply (effect_exit _ _ _ t); try assumption;
        unfold prepare_ready_exit; simpl; now destruct (task_shard t).
    - eapply (effect_suspend _ _ _ t); try eassumption; try reflexivity.
      discriminate. }
  destruct (task_pc t) as [| |fut d|] eqn:Hpc.
  - assert (Hu : is_finished t = false) by (unfold is_finished; now rewrite Hpc).
    destruct (task_shard t); [now apply Harm|].
    destruct (shards_connected h); [now apply Harm|].
    eapply (effect_suspend _ _ _ t); try eassumption; try reflexivity.
    discriminate.
  - assert (Hu : is_finished t = false) by (unfold is_finished; now rewrite Hpc).
    destruct (shards_connected h); [now apply Harm | now apply effect_none].
  - assert (Hu : is_finished t = false) by (unfold is_finished; now rewrite Hpc).
    destruct (futures h !! fut) as [[| |]|]; try now apply effect_none.
    + destruct (Qle_bool d (now h)); [|now apply effect_none].
      apply (effect_exit _ _ _ t); try assumption;
        unfold prepare_ready_exit; simpl; now destruct (task_shard t).
    + now apply Harm.
  - now apply effect_none.
Qed.

Lemma on_ready_effect (h : DispatchHandler M) shard data :
  payload_effect h (fst (on_ready h shard data)).
Proof.
  unfold on_ready.
  destruct (bind (getitem data "user") ClientUser_init) as [user|];
    [|now apply payload_none].
  destruct (bind (getitem data "guilds") len); [|now apply payload_none].
  simpl. destruct (ready_task h) as [k|] eqn:Hk; simpl.
  - now apply (payload_shard _ _ shard k).
  - apply (payload_both _ _ shard); simpl; try assumption.
    + now rewrite <- app_assoc.
    + rewrite length_app. simpl. f_equal. lia.
Qed.

Lemma on_guild_create_effect (h : DispatchHandler M) shard data :
  payload_effect h (fst (on_guild_create h shard data)).
Proof.
  apply payload_none; unfold on_guild_create;
    destruct (Guild_init data) as [g|]; try reflexivity;
    destruct (unavailable g); simpl;
    destruct (guild_create_waiter h) as [w|]; try reflexivity;
    destruct (futures h !! w) as [[| |]|]; reflexivity.
Qed.

Lemma handle_effect (h : DispatchHandler M) shard title data :
  payload_effect h (fst (handle h shard title data)).
Proof.
  unfold handle.
  set (h1 := if debug_events h
             then invoke h (GatewayDispatch shard title data) else h).
  assert (Ht : tasks h1 = tasks h) by (unfold h1; now destruct (debug_events h)).
  assert (Hr : ready_task h1 = ready_task h)
    by (unfold h1; now destruct (debug_events h)).
  destruct (_handlers !! title) as [f|]; [|now apply payload_none].
  set (h2 := log (Entered f shard) h1).
  assert (He : payload_effect h2 (fst (call f h2 shard data))).
  { destruct f; [apply on_ready_effect | apply on_guild_create_effect]. }
  assert (Ht2 : tasks h2 = tasks h) by exact Ht.
  assert (Hr2 : ready_task h2 = ready_task h) by exact Hr.
  destruct He as [H1 H2|s k H1 H2 H3|s H1 H2 H3].
  - apply payload_none; congruence.
  - apply (payload_shard _ _ s k); congruence.
  - apply (payload_both _ _ s); congruence.
Qed.

Lemma in_flight_lt (h : DispatchHandler M) (i : nat) :
  in_flight h i -> (i < length (tasks h))%nat.
Proof. intros (t & Ht & _). eapply lookup_lt_Some; eassumption. Qed.

Lemma count_ready_handle (h : DispatchHandler M) shard title data :
  count (is_invoked Ready) (fst (handle h shard title data))
  = count (is_invoked Ready) h.
Proof.
  unfold count. rewrite handle_trace, !filter_app, !length_app.
  destruct (debug_events h), (_handlers !! title); simpl; lia.
Qed.

Lemma single_aggregate_init T dbg :
  single_aggregate (DispatchHandler_init T dbg).
Proof.
  constructor; [reflexivity|].
  intros i. split.
  - intros (t & Ht & _). discriminate Ht.
  - discriminate.
Qed.

Lemma single_aggregate_handle (h : DispatchHandler M) shard title data :
  single_aggregate h -> single_aggregate (fst (handle h shard title data)).
Proof.
  intros [Hcount Htask].
  pose proof (handle_effect h shard title data) as He.
  pose proof (count_ready_handle h shard title data) as Hc.
  set (h' := fst (handle h shard title data)) in *.
  destruct He as [H1 H2|s k H1 H2 H3|s H1 H2 H3].
  - constructor.
    + rewrite Hc, Hcount. unfold aggregate_finished. now rewrite H1.
    + intros i. unfold in_flight. rewrite H1, H2. apply Htask.
  - constructor.
    + rewrite Hc, Hcount. unfold aggregate_finished.
      rewrite H2, filter_app, length_app. simpl. lia.
    + intros i. rewrite H3, <- H1, <- Htask. unfold in_flight. rewrite H2.
      split; intros (t & Ht & Ha & Hf).
      * apply lookup_app_Some in Ht as [Ht|[_ Ht]]; [now exists t|].
        destruct (i - length (tasks h))%nat as [|n]; simpl in Ht;
          [|discriminate].
        injection Ht as <-. discriminate Ha.
      * exists t. split; [|now split]. now apply lookup_app_l_Some.
  - constructor.
    + rewrite Hc, Hcount. unfold aggregate_finished.
      rewrite H2, filter_app, length_app. simpl. lia.
    + intros i. rewrite H3. unfold in_flight. rewrite H2. split.
      * intros (t & Ht & Ha & Hf).
        apply lookup_app_Some in Ht as [Ht|[Hge Ht]].
        -- assert (Hin : in_flight h i) by now exists t.
           apply Htask in Hin. congruence.
        -- destruct (i - length (tasks h))%nat as [|[|n]] eqn:Hi;
             simpl in Ht; try discriminate.
           ++ injection Ht as <-. discriminate Ha.
           ++ f_equal. lia.
      * intros [= <-]. exists {| task_shard := None; task_pc := Start |}.
        split; [|split; reflexivity].
        rewrite lookup_app_r by lia.
        now replace (S (length (tasks h)) - length (tasks h))%nat with 1%nat by lia.
Qed.

Lemma in_flight_insert (h h' : DispatchHandler M) (i j : nat) (t t' : Task) :
  tasks h !! i = Some t ->
  tasks h' = <[i := t']> (tasks h) ->
  in_flight h' j
  <-> if decide (i = j)
      then is_aggregate t' = true /\ is_finished t' = false
      else in_flight h j.
Proof.
  intros Ht Hts. unfold in_flight. rewrite Hts.
  assert (Hlt : (i < length (tasks h))%nat)
    by (eapply lookup_lt_Some; eassumption).
  case_decide as Hij.
  - subst j. rewrite list_lookup_insert_eq by assumption. split.
    + intros (t0 & [= <-] & H). exact H.
    + intros H. now exists t'.
  - now rewrite list_lookup_insert_ne.
Qed.

Lemma aggregate_finished_insert (h h' : DispatchHandler M) i (t t' : Task) :
  tasks h !! i = Some t ->
  tasks h' = <[i := t']> (tasks h) ->
  (aggregate_finished h' + (if is_aggregate t && is_finished t then 1 else 0)
   = aggregate_finished h
     + (if is_aggregate t' && is_finished t' then 1 else 0))%nat.
Proof.
  intros Ht Hts. unfold aggregate_finished. rewrite Hts.
  apply (count_insert (fun t => is_aggregate t && is_finished t)). exact Ht.
Qed.

Lemma count_ready_log (h h' : DispatchHandler M) (o : obs) :
  trace h' = trace h ++ [o] ->
  count (is_invoked Ready) h'
  = (count (is_invoked Ready) h + (if is_invoked Ready o then 1 else 0))%nat.
Proof.
  intros Htr. unfold count. rewrite Htr, filter_app, length_app. f_equal.
  rewrite filter_cons, filter_nil. now destruct (is_invoked Ready o).
Qed.

Lemma single_aggregate_prepare_ready (h : DispatchHandler M) (i : nat) :
  single_aggregate h -> single_aggregate (_prepare_ready h i).
Proof.
  intros [Hcount Htask].
  destruct (prepare_ready_effect h i)
    as [->|t p Ht Hu Hp Hts Hrt Htr|t Ht Hu Hts Hrt Htr].
  - now constructor.
  - assert (Hfin : is_finished {| task_shard := task_shard t; task_pc := p |}
                   = false)
      by (destruct p; try reflexivity; exfalso; now apply Hp).
    constructor.
    + unfold count. rewrite Htr. fold (count (is_invoked Ready) h).
      pose proof (aggregate_finished_insert h _ i t _ Ht Hts) as Hc.
      rewrite Hu, Hfin, !andb_false_r in Hc. lia.
    + intros j. rewrite (in_flight_insert h _ i j t _ Ht Hts), Hrt.
      case_decide as Hij; [subst j|apply Htask].
      rewrite <- Htask. unfold in_flight. rewrite Ht, Hfin.
      unfold is_aggregate at 1. simpl. split.
      * intros [Ha _]. exists t. now repeat split.
      * intros (t0 & [= <-] & Ha & _). now split.
  - pose proof (aggregate_finished_insert h _ i t _ Ht Hts) as Hc.
    pose proof (count_ready_log h _ _ Htr) as Hr.
    rewrite Hu, andb_false_r in Hc. unfold is_aggregate at 1 in Hc.
    simpl in Hc. unfold ready_event in Hr.
    destruct (task_shard t) as [shard|] eqn:Hshard; simpl in Hc, Hr.
    + (* the wait of a shard finishes *)
      constructor; [lia|].
      intros j. rewrite (in_flight_insert h _ i j t _ Ht Hts), Hrt.
      case_decide as Hij; [subst j|apply Htask].
      rewrite <- Htask. unfold in_flight. rewrite Ht. split.
      * intros [Ha _]. discriminate Ha.
      * intros (t0 & [= <-] & Ha & _). unfold is_aggregate in Ha.
        rewrite Hshard in Ha. discriminate Ha.
    + (* the aggregate wait finishes *)
      assert (Hin : in_flight h i).
      { exists t. repeat split; try assumption.
        unfold is_aggregate. now rewrite Hshard. }
      constructor; [lia|].
      intros j. rewrite (in_flight_insert h _ i j t _ Ht Hts), Hrt.
      case_decide as Hij.
      * split; [intros [_ Hf]; discriminate Hf | discriminate].
      * split; [|discriminate]. intros Hj.
        apply Htask in Hin, Hj. congruence.
Qed.

Lemma single_aggregate_step (h : DispatchHandler M) (a : action) :
  single_aggregate h -> single_aggregate (step h a).
Proof.
  intros Hs. destruct a as [shard title data| |t|i]; simpl.
  - now apply single_aggregate_handle.
  - destruct Hs as [Hcount Htask]. now constructor.
  - destruct (Qle_bool (now h) t); [|assumption].
    destruct Hs as [Hcount Htask]. now constructor.
  - now apply single_aggregate_prepare_ready.
Qed.

Lemma single_aggregate_run (acts : list action) :
  forall h : DispatchHandler M,
    single_aggregate h -> single_aggregate (run h acts).
Proof.
  induction acts as [|a acts IH]; intros h Hs; [exact Hs|].
  simpl. apply IH. now apply single_aggregate_step.
Qed.


End AggregateReady.

(* ===================================================================== *)
(** * The quiescence wait is a debounce                                  *)
(* ===================================================================== *)

Section Debounce.
Import Py Asyncio Dispatch.
Context {M : Models}.
Local Open Scope list_scope.

Lemma prepare_ready_now (h : DispatchHandler M) (i : nat) :
  now (_prepare_ready h i) = now h.
Proof.
  unfold _prepare_ready, prepare_ready_arm, prepare_ready_exit.
  destruct (tasks h !! i) as [[shard p]|]; [|reflexivity].
  destruct p as [| |fut d|]; simpl; try reflexivity.
  - destruct shard; [|destruct (shards_connected h)];
      try destruct (Qle_bool (ready_timeout h) 0); simpl; reflexivity.
  - destruct (shards_connected h);
      try destruct (Qle_bool (ready_timeout h) 0); simpl;
      destruct shard; reflexivity.
  - destruct (futures h !! fut) as [[| |]|]; try reflexivity.
    + destruct (Qle_bool d (now h)); simpl; destruct shard; reflexivity.
    + destruct (Qle_bool (ready_timeout h) 0); simpl; destruct shard;
        reflexivity.
Qed.

Lemma unresolved_app (fs : list (Future Guild)) (x : Future Guild) (f : nat) :
  (forall v, fs !! f <> Some (Resolved v)) ->
  (forall v, x <> Resolved v) ->
  forall v, (fs ++ [x]) !! f <> Some (Resolved v).
Proof.
  intros Hf Hx v Hl. apply lookup_app_Some in Hl as [Hl|[_ Hl]].
  - now apply (Hf v).
  - destruct (f - length fs)%nat; simpl in Hl; [|discriminate].
    injection Hl as ->. now apply (Hx v).
Qed.

Lemma unresolved_cancel (fs : list (Future Guild)) (f' f : nat) :
  (forall v, fs !! f <> Some (Resolved v)) ->
  forall v, <[f' := Cancelled]> fs !! f <> Some (Resolved v).
Proof.
  intros Hf v Hl. destruct (decide (f' = f)) as [->|Hne].
  - destruct (decide (f < length fs)%nat) as [Hlt|Hge].
    + rewrite list_lookup_insert_eq in Hl by assumption. discriminate.
    + rewrite list_insert_ge in Hl by lia. now apply (Hf v).
  - rewrite list_lookup_insert_ne in Hl by assumption. now apply (Hf v).
Qed.

(** Running a task gives no future a result. *)
Lemma prepare_ready_unresolved (h : DispatchHandler M) (i f : nat) :
  unresolved h f -> unresolved (_prepare_ready h i) f.
Proof.
  unfold unresolved. intros Hf.
  assert (Happ : forall x : Future Guild,
             (forall v, x <> Resolved v) ->
             forall v, (futures h ++ [x]) !! f <> Some (Resolved v))
    by (intros x Hx; now apply unresolved_app).
  assert (Hcancel : forall f' v,
             <[f' := Cancelled]> (futures h) !! f <> Some (Resolved v))
    by (intros f'; now apply unresolved_cancel).
  assert (Harm : forall t v,
             futures (prepare_ready_arm h i t) !! f <> Some (Resolved v)).
  { intros t. unfold prepare_ready_arm, prepare_ready_exit.
    destruct (Qle_bool (ready_timeout h) 0); simpl;
      destruct (task_shard t); simpl; apply Happ; discriminate. }
  unfold _prepare_ready.
  destruct (tasks h !! i) as [t|]; [|exact Hf].
  destruct (task_pc t) as [| |fut d|]; try exact Hf.
  - destruct (task_shard t); [apply Harm|].
    destruct (shards_connected h); [apply Harm | exact Hf].
  - destruct (shards_connected h); [apply Harm | exact Hf].
  - destruct (futures h !! fut) as [[| |]|]; try exact Hf; [|apply Harm].
    destruct (Qle_bool d (now h)); [|exact Hf].
    unfold prepare_ready_exit. simpl. destruct (task_shard t); simpl;
      apply Hcancel.
Qed.

(** A task that waits on a future without result, before its deadline,
    cannot go on. *)
Lemma prepare_ready_blocked (h : DispatchHandler M) scope i fut d n :
  waiting scope i fut d n h -> _prepare_ready h i = h.
Proof.
  intros Hw. unfold _prepare_ready. rewrite (wt_task _ _ _ _ _ _ Hw). simpl.
  pose proof (wt_future _ _ _ _ _ _ Hw) as Hf. unfold unresolved in Hf.
  destruct (futures h !! fut) as [[|v|]|]; try reflexivity.
  - destruct (Qle_bool d (now h)) eqn:Hle; [|reflexivity].
    apply Qle_bool_iff in Hle.
    exfalso. eapply Qlt_not_le; [apply (wt_clock _ _ _ _ _ _ Hw) | exact Hle].
  - now destruct (Hf v).
Qed.

Lemma is_invoked_ready_event (scope scope' : option Shard) :
  scope' <> scope ->
  is_invoked (ready_event scope) (Invoked (ready_event scope')) = false.
Proof.
  intros Hne. destruct scope as [s|], scope' as [s'|]; simpl;
    try reflexivity; [|congruence].
  apply Nat.eqb_neq. congruence.
Qed.

(** Before the deadline, and as long as no payload is delivered, the wait
    goes on and its readiness event is not emitted, whatever else the
    event loop runs. *)
Lemma waiting_step (h : DispatchHandler M) scope i fut d n (a : action) :
  quiet d a ->
  waiting scope i fut d n h -> waiting scope i fut d n (step h a).
Proof.
  intros Hq Hw. destruct a as [shard title data| |t|j]; simpl in *.
  - contradiction.
  - destruct Hw. now constructor.
  - destruct (Qle_bool (now h) t); [|assumption].
    destruct Hw. now constructor.
  - destruct (decide (j = i)) as [->|Hji].
    { now rewrite (prepare_ready_blocked h scope i fut d n). }
    pose proof (prepare_ready_unresolved h j fut (wt_future _ _ _ _ _ _ Hw))
      as Hfut.
    pose proof (prepare_ready_now h j) as Hnow.
    destruct (prepare_ready_effect h j)
      as [Heq|t p Ht Hu Hp Hts Hrt Htr|t Ht Hu Hts Hrt Htr].
    + rewrite Heq. assumption.
    + assert (Hscope : task_shard t <> scope).
      { intros Heq. pose proof (wt_others _ _ _ _ _ _ Hw j t Ht Hji Heq) as Hfin.
        unfold is_finished in Hu. rewrite Hfin in Hu. discriminate. }
      constructor.
      * rewrite Hts, list_lookup_insert_ne by assumption. apply Hw.
      * exact Hfut.
      * rewrite Hnow. apply Hw.
      * intros k t' Hk Hki Hsc. rewrite Hts in Hk.
        destruct (decide (j = k)) as [<-|Hjk].
        -- rewrite list_lookup_insert_eq in Hk
             by (eapply lookup_lt_Some; eassumption).
           injection Hk as <-. simpl in Hsc. contradiction.
        -- rewrite list_lookup_insert_ne in Hk by assumption.
           eapply (wt_others _ _ _ _ _ _ Hw); eassumption.
      * unfold count. rewrite Htr. apply (wt_count _ _ _ _ _ _ Hw).
    + assert (Hscope : task_shard t <> scope).
      { intros Heq. pose proof (wt_others _ _ _ _ _ _ Hw j t Ht Hji Heq) as Hfin.
        unfold is_finished in Hu. rewrite Hfin in Hu. discriminate. }
      constructor.
      * rewrite Hts, list_lookup_insert_ne by assumption. apply Hw.
      * exact Hfut.
      * rewrite Hnow. apply Hw.
      * intros k t' Hk Hki Hsc. rewrite Hts in Hk.
        destruct (decide (j = k)) as [<-|Hjk].
        -- rewrite list_lookup_insert_eq in Hk
             by (eapply lookup_lt_Some; eassumption).
           injection Hk as <-. reflexivity.
        -- rewrite list_lookup_insert_ne in Hk by assumption.
           eapply (wt_others _ _ _ _ _ _ Hw); eassumption.
      * unfold count. rewrite Htr, filter_app, length_app.
        rewrite filter_cons, filter_nil.
        rewrite is_invoked_ready_event by assumption. simpl.
        rewrite Nat.add_0_r. apply (wt_count _ _ _ _ _ _ Hw).
Qed.

Lemma waiting_run scope i fut d n (acts : list action) :
  forall h : DispatchHandler M,
    Forall (quiet d) acts ->
    waiting scope i fut d n h -> waiting scope i fut d n (run h acts).
Proof.
  induction acts as [|a acts IH]; intros h Hq Hw; [exact Hw|].
  inversion Hq as [|a' acts' Ha Hacts]; subst.
  simpl. apply IH; [assumption|]. now apply waiting_step.
Qed.

(** When the future of a wait has a result, the task arms a fresh future
    whose deadline is the present time plus the timeout: the timer
    restarts. *)
Lemma prepare_ready_rearm (h : DispatchHandler M) scope i fut d v :
  tasks h !! i = Some {| task_shard := scope; task_pc := AwaitWaiter fut d |} ->
  futures h !! fut = Some (Resolved v) ->
  Qle_bool (ready_timeout h) 0 = false ->
  tasks (_prepare_ready h i) !! i
  = Some {| task_shard := scope;
            task_pc := AwaitWaiter (length (futures h))
                         (now h + ready_timeout h) |}
  /\ futures (_prepare_ready h i) = futures h ++ [Pending]
  /\ guild_create_waiter (_prepare_ready h i) = Some (length (futures h))
  /\ trace (_prepare_ready h i) = trace h.
Proof.
  intros Ht Hf HT. unfold _prepare_ready. rewrite Ht. simpl. rewrite Hf.
  unfold prepare_ready_arm. rewrite HT. simpl.
  repeat split. apply list_lookup_insert_eq.
  eapply lookup_lt_Some; eassumption.
Qed.

End Debounce.

(* ===================================================================== *)
(** * Runs on concrete payloads                                          *)
(* ===================================================================== *)

Section Scenarios.
Import Py Asyncio Dispatch.
Local Open Scope list_scope.
Local Existing Instance sample_models.

(** C4.  With the timeout 2.0, a wait started at time 0 whose armed
    future is resolved by guild payloads at the times 0.5, 1.0 and 1.5
    re-arms with the deadlines 2.5, 3.0 and 3.5; its readiness event is
    not emitted in any continuation that stays before 3.5, and it is
    emitted when the task runs at 3.5.  With no guild payload at all the
    event is not emitted before 2.0 and is emitted at 2.0, after the one
    future that was armed timed out. *)
Theorem quiescence_wait_is_a_debounce :
  let h0 := run (handler0 false) shard_wait_started in
  let h3 := run h0 three_guilds in
  tasks h3 !! 0%nat
  = Some {| task_shard := Some 0%nat; task_pc := AwaitWaiter 3 (7 # 2) |}
  /\ futures h3
     = [Resolved (7%Z, false); Resolved (8%Z, false); Resolved (9%Z, true);
        Pending]
  /\ (forall acts,
        Forall (quiet (7 # 2)) acts ->
        count (is_invoked (ShardReady 0)) (run h3 acts) = 0%nat)
  /\ count (is_invoked (ShardReady 0)) (run h3 [Tick (7 # 2); Run 0]) = 1%nat
  /\ tasks h0 !! 0%nat
     = Some {| task_shard := Some 0%nat; task_pc := AwaitWaiter 0 2 |}
  /\ (forall acts,
        Forall (quiet 2) acts ->
        count (is_invoked (ShardReady 0)) (run h0 acts) = 0%nat)
  /\ count (is_invoked (ShardReady 0)) (run h0 [Tick 2; Run 0]) = 1%nat
  /\ futures (run h0 [Tick 2; Run 0]) = [Cancelled].
Proof.
  intros h0 h3.
  assert (Ht0 : tasks h0
                = [{| task_shard := Some 0%nat; task_pc := AwaitWaiter 0 2 |};
                   {| task_shard := None; task_pc := AwaitConnected |}])
    by (vm_compute; reflexivity).
  assert (Hf0 : futures h0 = [Pending]) by (vm_compute; reflexivity).
  assert (Hn0 : (now h0 < 2)%Q) by (vm_compute; reflexivity).
  assert (Hc0 : count (is_invoked (ShardReady 0)) h0 = 0%nat)
    by (vm_compute; reflexivity).
  assert (He0 : count (is_invoked (ShardReady 0)) (run h0 [Tick 2; Run 0])
                = 1%nat) by (vm_compute; reflexivity).
  assert (Hp0 : futures (run h0 [Tick 2; Run 0]) = [Cancelled])
    by (vm_compute; reflexivity).
  assert (Ht3 : tasks h3
                = [{| task_shard := Some 0%nat;
                      task_pc := AwaitWaiter 3 (7 # 2) |};
                   {| task_shard := None; task_pc := AwaitConnected |}])
    by (vm_compute; reflexivity).
  assert (Hf3 : futures h3
                = [Resolved (7%Z, false); Resolved (8%Z, false);
                   Resolved (9%Z, true); Pending])
    by (vm_compute; reflexivity).
  assert (Hn3 : (now h3 < 7 # 2)%Q) by (vm_compute; reflexivity).
  assert (Hc3 : count (is_invoked (ShardReady 0)) h3 = 0%nat)
    by (vm_compute; reflexivity).
  assert (He3 : count (is_invoked (ShardReady 0))
                  (run h3 [Tick (7 # 2); Run 0]) = 1%nat)
    by (vm_compute; reflexivity).
  clearbody h3. clearbody h0.
  assert (Hothers : forall (ts : list Task) d f,
             ts = [{| task_shard := Some 0%nat; task_pc := AwaitWaiter f d |};
                   {| task_shard := None; task_pc := AwaitConnected |}] ->
             forall j t,
               ts !! j = Some t -> j <> 0%nat ->
               task_shard t = Some 0%nat -> task_pc t = Finished).
  { intros ts d f -> j t Hj Hne Hs.
    destruct j as [|[|j]]; [congruence| |discriminate Hj].
    injection Hj as <-. discriminate Hs. }
  assert (Hw0 : waiting (Some 0%nat) 0 0 2 0 h0).
  { constructor; try assumption.
    - rewrite Ht0. reflexivity.
    - intros v. rewrite Hf0. discriminate.
    - eapply Hothers. exact Ht0. }
  assert (Hw3 : waiting (Some 0%nat) 0 3 (7 # 2) 0 h3).
  { constructor; try assumption.
    - rewrite Ht3. reflexivity.
    - intros v. rewrite Hf3. discriminate.
    - eapply Hothers. exact Ht3. }
  split; [rewrite Ht3; reflexivity|]. split; [exact Hf3|].
  split; [|split; [|split; [|split; [|split]]]].
  - intros acts Hq.
    apply (wt_count _ _ _ _ _ _ (waiting_run _ _ _ _ _ acts h3 Hq Hw3)).
  - exact He3.
  - rewrite Ht0. reflexivity.
  - intros acts Hq.
    apply (wt_count _ _ _ _ _ _ (waiting_run _ _ _ _ _ acts h0 Hq Hw0)).
  - exact He0.
  - exact Hp0.
Qed.


Lemma handle_unknown_title_and_debug_witness :
  let h := handler0 true in
  (handle h 0 "TYPING_START" JNull
   = (invoke h (GatewayDispatch 0 "TYPING_START" JNull), None)
   /\ count is_entered (fst (handle h 0 "TYPING_START" JNull))
      = count is_entered h)
  /\ count is_raw_dispatch (fst (handle h 0 "TYPING_START" JNull))
     = S (count is_raw_dispatch h)
  /\ trace (fst (handle h 0 "TYPING_START" JNull))
     = trace h ++ [Invoked (GatewayDispatch 0 "TYPING_START" JNull)].
Proof.
  intros h.
  destruct (handle_unknown_title_and_debug h 0 "TYPING_START" JNull)
    as [Hunknown Hdebug].
  split.
  - apply Hunknown. reflexivity.
  - apply Hdebug. reflexivity.
Defined.

Lemma guild_create_cache_and_waiter_witness :
  let h := run (handler0 false) shard_wait_started in
  let r := handle h 0 "GUILD_CREATE" (guild_payload 7 true) in
  snd r = None
  /\ (true = true -> cache (fst r) = cache h)
  /\ (true = false ->
      cache (fst r) = add_guild (cache h) (7%Z, true)
      /\ guilds (cache (fst r)) !! 7%Z = Some (7%Z, true))
  /\ (forall w,
        guild_create_waiter h = Some w ->
        futures h !! w = Some Pending ->
        futures (fst r) !! w = Some (Resolved (7%Z, true))).
Proof.
  intros h.
  apply (guild_create_cache_and_waiter h 0 (guild_payload 7 true) (7%Z, true)).
  reflexivity.
Defined.

Lemma guild_create_on_resolved_waiter_witness :
  let h := run (handler0 false)
             (shard_wait_started
              ++ [Recv 0 "GUILD_CREATE" (guild_payload 7 false)]) in
  let r := handle h 0 "GUILD_CREATE" (guild_payload 8 false) in
  snd r = None
  /\ futures (fst r) = futures h
  /\ same_waits (fst r) h
  /\ (forall acts, same_waits (run (fst r) acts) (run h acts))
  /\ (forall h0 f v,
        futures h0 !! f = Some (Resolved v) ->
        futures (fst (handle h0 0 "GUILD_CREATE" (guild_payload 8 false))) !! f
        = Some (Resolved v)).
Proof.
  intros h.
  apply (guild_create_on_resolved_waiter h 0 (guild_payload 8 false)
           0 (Resolved (7%Z, false))); vm_compute; reflexivity.
Defined.

End Scenarios.

(* ===================================================================== *)
(** * More properties of [Route]                                         *)
(* ===================================================================== *)

Section RouteRendering.
Import Py Ratelimits Registry.

Lemma render_no_braces params (s : string) :
  no_braces s = true -> render params None s = Ok s.
Proof.
  induction s as [|c s IH]; intros Hs; [reflexivity|].
  simpl in Hs. apply andb_prop in Hs as [Hc Hs].
  apply andb_prop in Hc as [Hopen Hclose].
  apply negb_true_iff in Hopen, Hclose.
  simpl. rewrite Hopen, Hclose, (IH Hs). reflexivity.
Qed.

(** A path template without braces is its own rendering: the url is the
    base url followed by the path, whatever parameters were given. *)
Theorem url_of_plain_path (r : Route) :
  no_braces (path r) = true ->
  url r = Ok (REST_BASE_URL ++ path r).
Proof.
  intros Hp. unfold url, format_map. now rewrite render_no_braces.
Qed.

Lemma url_of_plain_path_witness :
  url {| method := "GET"; path := "/gateway/bot"; requires_auth := true;
         params := {["guild_id" := PyInt 1]} |}
  = Ok (REST_BASE_URL ++ "/gateway/bot").
Proof.
  apply (url_of_plain_path
           {| method := "GET"; path := "/gateway/bot"; requires_auth := true;
              params := {["guild_id" := PyInt 1]} |}).
  reflexivity.
Defined.



Lemma get_field_weaken (params more : gmap string pyval) name v :
  params ⊆ more ->
  get_field params name = Ok v -> get_field more name = Ok v.
Proof.
  intros Hsub. unfold get_field. destruct (all_digits name); [discriminate|].
  destruct (params !! name) as [v'|] eqn:Hl; [|discriminate].
  intros [= <-]. now rewrite (lookup_weaken _ _ _ _ Hl Hsub).
Qed.

Lemma render_weaken (params more : gmap string pyval) (n : nat) :
  params ⊆ more ->
  forall s field out,
    (String.length s <= n)%nat ->
    render params field s = Ok out ->
    render more field s = Ok out.
Proof.
  intros Hsub. induction n as [|n IH]; intros s field out Hn Hr.
  - destruct s; [|simpl in Hn; lia]. exact Hr.
  - destruct s as [|c rest]; [exact Hr|]. simpl in Hn.
    destruct field as [name|].
    + simpl in Hr |- *. destruct (Ascii.eqb c "}").
      * destruct (get_field params name) as [v|e] eqn:Hg; simpl in Hr;
          [|discriminate].
        rewrite (get_field_weaken _ _ _ _ Hsub Hg). simpl.
        destruct (render params None rest) as [o|e] eqn:Hrest; simpl in Hr;
          [|discriminate].
        now rewrite (IH rest None o) by (lia || assumption).
      * destruct (is_field_special c); [discriminate|].
        apply IH; [lia | assumption].
    + simpl in Hr |- *. destruct (Ascii.eqb c "{").
      * destruct rest as [|c' rest']; [discriminate|]. simpl in Hn.
        destruct (Ascii.eqb c' "{").
        -- destruct (render params None rest') as [o|e] eqn:Hrest;
             simpl in Hr; [|discriminate].
           now rewrite (IH rest' None o) by (lia || assumption).
        -- apply IH; [simpl; lia | assumption].
      * destruct (Ascii.eqb c "}").
        -- destruct rest as [|c' rest']; [discriminate|]. simpl in Hn.
           destruct c' as [[] [] [] [] [] [] [] []]; try discriminate.
           destruct (render params None rest') as [o|e] eqn:Hrest;
             simpl in Hr; [|discriminate].
           now rewrite (IH rest' None o) by (lia || assumption).
        -- destruct (render params None rest) as [o|e] eqn:Hrest;
             simpl in Hr; [|discriminate].
           now rewrite (IH rest None o) by (lia || assumption).
Qed.

(** Parameters that the template does not use do not matter: a route whose
    url renders keeps the same url when it is given more parameters. *)
Theorem url_ignores_unused_parameters
    (r : Route) (more : gmap string pyval) (u : string) :
  params r ⊆ more ->
  url r = Ok u ->
  url {| method := method r; path := path r;
         requires_auth := requires_auth r; params := more |} = Ok u.
Proof.
  intros Hsub. unfold url, format_map. simpl.
  destruct (render (params r) None (path r)) as [p|e] eqn:Hr; [|discriminate].
  intros Hu.
  now rewrite (render_weaken _ _ (String.length (path r)) Hsub (path r) None p)
    by (lia || assumption).
Qed.

Lemma url_ignores_unused_parameters_witness :
  url {| method := "GET"; path := "/guilds/{guild_id}/roles";
         requires_auth := true;
         params := <["reason" := PyStr "x"]> {["guild_id" := PyInt 42]} |}
  = Ok "https://discord.com/api/v10/guilds/42/roles".
Proof.
  apply (url_ignores_unused_parameters
           {| method := "GET"; path := "/guilds/{guild_id}/roles";
              requires_auth := true; params := {["guild_id" := PyInt 42]} |}
           (<["reason" := PyStr "x"]> {["guild_id" := PyInt 42]})).
  - apply insert_subseteq. vm_compute. reflexivity.
  - vm_compute. reflexivity.
Defined.

(** A template with an unbalanced brace makes the url fail with
    [ValueError], whatever the parameters: a closing brace that is not
    doubled, or a field that is never closed. *)
Theorem url_unbalanced_brace (r : Route) (pre rest : string) :
  no_braces pre = true ->
  no_braces rest = true ->
  (path r = pre ++ String "}" rest ->
   url r = Raise (ValueError "Single '}' encountered in format string"))
  /\ (path r = pre ++ String "{" "" ->
      url r = Raise (ValueError "Single '{' encountered in format string"))
  /\ (forall c name,
        path r = pre ++ String "{" (String c name) ->
        plain (String c name) = true ->
        url r = Raise (ValueError "expected '}' before end of string")).
Proof.
  intros Hpre Hrest.
  assert (Hsplit : forall s,
             render (params r) None (pre ++ s)
             = bind (render (params r) None s) (fun o => Ok (pre ++ o))).
  { intros s.
    apply (render_prefix (params r) s (String.length pre) pre None pre);
      [lia | now apply render_no_braces]. }
  split; [|split].
  - intros Hpath. unfold url, format_map. rewrite Hpath, Hsplit.
    destruct rest as [|c rest']; [reflexivity|].
    simpl in Hrest. apply andb_prop in Hrest as [Hc _].
    apply andb_prop in Hc as [_ Hclose]. apply negb_true_iff in Hclose.
    simpl. destruct c as [[] [] [] [] [] [] [] []]; try reflexivity.
    discriminate Hclose.
  - intros Hpath. unfold url, format_map. rewrite Hpath, Hsplit. reflexivity.
  - intros c name Hpath Hplain. unfold url, format_map.
    rewrite Hpath, Hsplit.
    assert (Hfield : forall s acc,
               plain s = true ->
               render (params r) (Some acc) s
               = Raise (ValueError "expected '}' before end of string")).
    { induction s as [|c0 s IH]; intros acc Hs; [reflexivity|].
      simpl in Hs. apply andb_prop in Hs as [Hc Hs].
      apply andb_prop in Hc as [Hclose Hspecial].
      apply negb_true_iff in Hclose, Hspecial.
      simpl. rewrite Hclose, Hspecial. now apply IH. }
    assert (Hopen : Ascii.eqb c "{" = false).
    { simpl in Hplain. apply andb_prop in Hplain as [Hc _].
      apply andb_prop in Hc as [_ Hspecial]. apply negb_true_iff in Hspecial.
      unfold is_field_special in Hspecial.
      destruct (Ascii.eqb c "{"); [discriminate Hspecial | reflexivity]. }
    change (render (params r) None (String "{" (String c name)))
      with (if Ascii.eqb c "{"
            then bind (render (params r) None name)
                   (fun out => Ok (String "{" out))
            else render (params r) (Some "") (String c name)).
    rewrite Hopen, Hfield by assumption. reflexivity.
Qed.

Lemma url_unbalanced_brace_witness :
  url {| method := "GET"; path := "/guilds/}/roles"; requires_auth := true;
         params := ∅ |}
  = Raise (ValueError "Single '}' encountered in format string").
Proof.
  apply (url_unbalanced_brace
           {| method := "GET"; path := "/guilds/}/roles";
              requires_auth := true; params := ∅ |}
           "/guilds/" "/roles"); reflexivity.
Defined.



End RouteRendering.

(* ===================================================================== *)
(** * More properties of [RatelimitHandler]                              *)
(* ===================================================================== *)

Section RegistryInvariants.
Import Py Asyncio Ratelimits Registry.

Lemma lock_key_get_lock (h : RatelimitHandler) (p q : string) :
  lock_key (snd (get_lock h p)) q = lock_key h q.
Proof.
  unfold get_lock, lock_key.
  now destruct (locks h !! match buckets h !! p with
                           | Some key => key
                           | None => p
                           end).
Qed.

Lemma get_lock_stored (h : RatelimitHandler) (p : string) :
  locks (snd (get_lock h p)) !! lock_key h p = Some (fst (get_lock h p)).
Proof.
  unfold get_lock.
  destruct (locks h !! lock_key h p) as [l|] eqn:Hl; simpl; [exact Hl|].
  apply lookup_insert_eq.
Qed.

(** Asking twice for the lock of a path gives the same lock, and the second
    call leaves the registry as the first one left it. *)
Theorem get_lock_twice (h : RatelimitHandler) (p : string) :
  get_lock (snd (get_lock h p)) p = (fst (get_lock h p), snd (get_lock h p)).
Proof.
  pose proof (get_lock_stored h p) as Hs.
  pose proof (lock_key_get_lock h p p) as Hk.
  unfold get_lock at 1. rewrite Hk, Hs. reflexivity.
Qed.

Lemma well_formed_init : well_formed RatelimitHandler_init.
Proof.
  constructor; simpl; intros *; rewrite lookup_empty; discriminate.
Qed.

Lemma well_formed_clear h : well_formed h -> well_formed (clear h).
Proof.
  intros _. constructor; simpl; intros *; rewrite lookup_empty;
    discriminate.
Qed.

Lemma well_formed_get_lock h p :
  well_formed h -> well_formed (snd (get_lock h p)).
Proof.
  intros [Hrange Hinj]. unfold get_lock.
  destruct (locks h !! lock_key h p) as [l|] eqn:Hl; simpl;
    [now constructor|].
  constructor; simpl.
  - intros k l. rewrite length_app. simpl. rewrite lookup_insert.
    case_decide.
    + intros [= <-]. lia.
    + intros Hk. apply Hrange in Hk. lia.
  - intros k1 k2 l. rewrite !lookup_insert.
    repeat case_decide; try congruence.
    + intros [= <-] Hk. apply Hrange in Hk. lia.
    + intros Hk [= <-]. apply Hrange in Hk. lia.
    + apply Hinj.
Qed.

Lemma well_formed_set_bucket h p b :
  well_formed h -> well_formed (set_bucket h p b).
Proof.
  intros [Hrange Hinj]. unfold set_bucket.
  destruct (locks h !! p) as [l|] eqn:Hl; [|now constructor].
  constructor; simpl.
  - intros k l0. rewrite lookup_insert. case_decide.
    + intros [= <-]. now apply (Hrange p).
    + rewrite lookup_delete. case_decide; [discriminate|]. apply Hrange.
  - intros k1 k2 l0. rewrite !lookup_insert, !lookup_delete.
    repeat case_decide; try congruence.
    + intros [= <-] Hk. exfalso. pose proof (Hinj _ _ _ Hl Hk). congruence.
    + intros Hk [= <-]. exfalso. pose proof (Hinj _ _ _ Hl Hk). congruence.
    + apply Hinj.
Qed.

Lemma well_formed_exec h c : well_formed h -> well_formed (exec h c).
Proof.
  intros Hw. destruct c as [| | |p|p b]; simpl.
  - now apply well_formed_clear.
  - destruct Hw. now constructor.
  - destruct Hw. now constructor.
  - now apply well_formed_get_lock.
  - now apply well_formed_set_bucket.
Qed.

Lemma well_formed_exec_all (cs : list call) :
  forall h, well_formed h -> well_formed (exec_all h cs).
Proof.
  induction cs as [|c cs IH]; intros h Hw; [exact Hw|].
  simpl. apply IH. now apply well_formed_exec.
Qed.

(** Unrelated requests are not serialized: after any calls on a fresh
    registry, two paths that resolve to different keys get different
    locks. *)
Theorem different_keys_different_locks (cs : list call) (p1 p2 : string) :
  let h := exec_all RatelimitHandler_init cs in
  lock_key h p1 <> lock_key h p2 ->
  fst (get_lock (snd (get_lock h p1)) p2) <> fst (get_lock h p1).
Proof.
  intros h Hne.
  assert (Hw : well_formed (snd (get_lock h p1))).
  { apply well_formed_get_lock, well_formed_exec_all, well_formed_init. }
  pose proof (get_lock_stored h p1) as H1.
  pose proof (lock_key_get_lock h p1 p2) as Hk.
  revert Hw H1 Hk. generalize (snd (get_lock h p1)) (fst (get_lock h p1)).
  intros h1 l1 Hw H1 Hk. unfold get_lock. rewrite Hk.
  destruct (locks h1 !! lock_key h p2) as [l|] eqn:Hl; simpl.
  - intros ->. apply Hne. eapply (wf_inj _ Hw); eassumption.
  - intros Heq. apply (wf_range _ Hw) in H1. lia.
Qed.

Lemma different_keys_different_locks_witness :
  let h := exec_all RatelimitHandler_init
             [GetLock "GET-/a-1:None"; SetBucket "GET-/a-1:None" "b1";
              SetBucket "GET-/c-1:None" "b2"] in
  fst (get_lock (snd (get_lock h "GET-/a-1:None")) "GET-/c-1:None")
  <> fst (get_lock h "GET-/a-1:None").
Proof.
  apply (different_keys_different_locks
           [GetLock "GET-/a-1:None"; SetBucket "GET-/a-1:None" "b1";
            SetBucket "GET-/c-1:None" "b2"] "GET-/a-1:None" "GET-/c-1:None").
  vm_compute. discriminate.
Defined.

(** Routes that were assigned the same bucket are serialized by one lock:
    once [set_bucket] recorded the bucket [b] for two paths, [get_lock]
    returns the same lock for both. *)
Theorem same_bucket_same_lock (h : RatelimitHandler) (p1 p2 b : string) :
  let h' := set_bucket (set_bucket h p1 b) p2 b in
  fst (get_lock (snd (get_lock h' p1)) p2) = fst (get_lock h' p1).
Proof.
  intros h'.
  assert (Hk1 : lock_key h' p1 = b).
  { unfold lock_key, h', set_bucket; simpl.
    destruct (decide (p2 = p1)) as [->|Hne].
    - now rewrite lookup_insert_eq.
    - rewrite lookup_insert_ne by assumption. now rewrite lookup_insert_eq. }
  assert (Hk2 : lock_key h' p2 = b).
  { unfold lock_key, h', set_bucket; simpl. now rewrite lookup_insert_eq. }
  pose proof (get_lock_stored h' p1) as H1. rewrite Hk1 in H1.
  unfold get_lock at 1. rewrite lock_key_get_lock, Hk2, H1. reflexivity.
Qed.

(** Recording the same bucket for a path a second time changes nothing. *)
Theorem set_bucket_idempotent (h : RatelimitHandler) (p b : string) :
  set_bucket (set_bucket h p b) p b = set_bucket h p b.
Proof.
  unfold set_bucket. simpl. f_equal.
  - destruct (locks h !! p) as [l|] eqn:Hp; simpl; [|now rewrite Hp].
    destruct (decide (b = p)) as [->|Hne].
    + rewrite lookup_insert_eq. rewrite delete_insert_eq.
      rewrite delete_delete_eq. reflexivity.
    + rewrite lookup_insert_ne by assumption. now rewrite lookup_delete_eq.
  - apply insert_insert_eq.
Qed.

(** Moving a fallback lock to a bucket that already has a lock replaces
    that lock: after any calls on a fresh registry, if [p] and [b] are
    different keys that both have a lock, then after [set_bucket p b] no key
    leads to the lock that was under [b], while the lock object itself is
    left as it was. *)
Theorem set_bucket_replaces_lock_of_bucket
    (cs : list call) (p b : string) (l l' : nat) :
  let h := exec_all RatelimitHandler_init cs in
  locks h !! p = Some l ->
  locks h !! b = Some l' ->
  p <> b ->
  l <> l'
  /\ (forall k, locks (set_bucket h p b) !! k <> Some l')
  /\ lock_objs (set_bucket h p b) !! l' = lock_objs h !! l'.
Proof.
  intros h Hp Hb Hne.
  assert (Hw : well_formed h)
    by apply well_formed_exec_all, well_formed_init.
  assert (Hll : l <> l').
  { intros <-. apply Hne. eapply (wf_inj _ Hw); eassumption. }
  split; [exact Hll|]. split; [|reflexivity].
  intros k. unfold set_bucket. simpl. rewrite Hp, lookup_insert.
  case_decide; [congruence|].
  rewrite lookup_delete. case_decide; [discriminate|].
  intros Hk. pose proof (wf_inj _ Hw _ _ _ Hk Hb). congruence.
Qed.

Lemma set_bucket_replaces_lock_of_bucket_witness :
  let h := exec_all RatelimitHandler_init
             [GetLock "GET-/a-1:None"; SetBucket "GET-/a-1:None" "b1";
              GetLock "GET-/c-1:None"] in
  1%nat <> 0%nat
  /\ (forall k, locks (set_bucket h "GET-/c-1:None" "b1") !! k <> Some 0%nat)
  /\ lock_objs (set_bucket h "GET-/c-1:None" "b1") !! 0%nat
     = lock_objs h !! 0%nat.
Proof.
  intros h.
  apply (set_bucket_replaces_lock_of_bucket
           [GetLock "GET-/a-1:None"; SetBucket "GET-/a-1:None" "b1";
            GetLock "GET-/c-1:None"] "GET-/c-1:None" "b1" 1%nat 0%nat).
  - vm_compute. reflexivity.
  - vm_compute. reflexivity.
  - discriminate.
Defined.

(** After [clear], the lock of any path is a new, free lock, different
    from every lock the registry handed out before, also from one that a
    request still holds. *)
Theorem get_lock_after_clear (cs : list call) (p : string) :
  let h := exec_all RatelimitHandler_init cs in
  let lock := fst (get_lock (clear h) p) in
  lock = length (lock_objs h)
  /\ is_locked (snd (get_lock (clear h) p)) lock = false
  /\ (forall k l, locks h !! k = Some l -> l <> lock)
  /\ (forall l, lock_objs (snd (get_lock (clear h) p)) !! l = lock_objs h !! l
                \/ l = lock).
Proof.
  intros h lock.
  assert (Hw : well_formed h)
    by apply well_formed_exec_all, well_formed_init.
  assert (Hlock : lock = length (lock_objs h)).
  { unfold lock, get_lock. simpl. now rewrite lookup_empty. }
  split; [exact Hlock|]. split; [|split].
  - rewrite Hlock. unfold is_locked, get_lock. simpl. rewrite lookup_empty.
    simpl. rewrite lookup_app_r by lia. now rewrite Nat.sub_diag.
  - intros k l Hk. apply (wf_range _ Hw) in Hk. lia.
  - intros l. rewrite Hlock. unfold get_lock. simpl. rewrite lookup_empty.
    simpl. destruct (decide (l < length (lock_objs h))%nat) as [Hlt|Hge].
    + left. now apply lookup_app_l.
    + destruct (decide (l = length (lock_objs h))) as [->|Hne];
        [now right|]. left.
      rewrite lookup_ge_None_2 by (rewrite length_app; simpl; lia).
      symmetry. apply lookup_ge_None_2. lia.
Qed.

(** The registry never changes a lock object: whatever is called, a lock
    that exists stays as it is (held or free). *)
Theorem calls_keep_lock_objects
    (h : RatelimitHandler) (cs : list call) (lock : nat) (l : Lock) :
  lock_objs h !! lock = Some l ->
  lock_objs (exec_all h cs) !! lock = Some l
  /\ is_locked (exec_all h cs) lock = locked l.
Proof.
  intros Hl.
  assert (Hkeep : lock_objs (exec_all h cs) !! lock = Some l).
  { revert h Hl. induction cs as [|c cs IH]; intros h Hl; [exact Hl|].
    simpl. apply IH.
    destruct c as [| | |p|p b]; simpl; try exact Hl.
    unfold get_lock. destruct (locks h !! lock_key h p); simpl; [exact Hl|].
    now apply lookup_app_l_Some. }
  split; [exact Hkeep|]. unfold is_locked. now rewrite Hkeep.
Qed.

Lemma calls_keep_lock_objects_witness :
  let h := {| global_ratelimit_cleared := true;
              locks := {["k" := 0%nat]};
              buckets := ∅;
              lock_objs := [{| locked := true; waiters := [] |}] |} in
  lock_objs (exec_all h [SetBucket "k" "b"; Clear; GetLock "k"; SetGlobal])
    !! 0%nat = Some {| locked := true; waiters := [] |}
  /\ is_locked (exec_all h [SetBucket "k" "b"; Clear; GetLock "k"; SetGlobal]) 0
     = locked {| locked := true; waiters := [] |}.
Proof.
  intros h.
  apply (calls_keep_lock_objects h
           [SetBucket "k" "b"; Clear; GetLock "k"; SetGlobal] 0
           {| locked := true; waiters := [] |}).
  reflexivity.
Defined.

End RegistryInvariants.

(* ===================================================================== *)
(** * The handler table                                                  *)
(* ===================================================================== *)

Section HandlerTable.
Import Py Dispatch Handlers.
Local Open Scope list_scope.

Lemma register_fold {A} (members : list (member A)) (title : string) :
  forall table : gmap string A,
    fold_left register members table !! title
    = match last (tagged_with title members) with
      | Some v => Some v
      | None => table !! title
      end.
Proof.
  induction members as [|m ms IH]; intros table; [reflexivity|].
  simpl. rewrite IH. destruct m as [name|name title' value]; simpl;
    [reflexivity|].
  destruct (String.eqb_spec title' title) as [->|Hne].
  - rewrite last_cons.
    destruct (last (tagged_with title ms)); [reflexivity|].
    apply lookup_insert_eq.
  - destruct (last (tagged_with title ms)); [reflexivity|].
    now apply lookup_insert_ne.
Qed.

(** [_update_handlers] registers, for each title, the last member that
    carries it: an earlier member with the same title is overwritten, and
    a title that no member carries is absent from the table. *)
Theorem update_handlers_last_wins {A} (members : list (member A))
    (title : string) :
  _update_handlers members !! title = last (tagged_with title members).
Proof.
  unfold _update_handlers. rewrite register_fold, lookup_empty.
  now destruct (last (tagged_with title members)).
Qed.

(** On the members of [DispatchHandler] this is the table that [handle]
    looks titles up in. *)
Lemma update_handlers_of_dispatch_handler :
  _update_handlers DispatchHandler_members = _handlers.
Proof. reflexivity. Qed.

End HandlerTable.

(* ===================================================================== *)
(** * What handling a payload does and does not do                       *)
(* ===================================================================== *)

Section PayloadFacts.
Import Py Asyncio Dispatch Readiness.
Context {M : Models}.
Local Open Scope list_scope.

Lemma handlers_lookup (title : string) (f : handler) :
  _handlers !! title = Some f ->
  (title = "READY" /\ f = on_ready_handler)
  \/ (title = "GUILD_CREATE" /\ f = on_guild_create_handler).
Proof.
  unfold _handlers. rewrite lookup_insert. case_decide as H1.
  - intros [= <-]. now left.
  - rewrite lookup_insert. case_decide as H2.
    + intros [= <-]. now right.
    + rewrite lookup_empty. discriminate.
Qed.

Lemma handle_ready (h : DispatchHandler M) shard data :
  handle h shard "READY" data
  = on_ready (entered h shard "READY" data on_ready_handler) shard data.
Proof. unfold handle. now rewrite handlers_ready. Qed.

(** The outcomes of a READY payload.  When the user cannot be read, the
    exception reaches the caller and nothing but the log has changed.  When
    the user is read but the guilds cannot be counted, the exception reaches
    the caller after the user was stored: the cache and [client._user] are
    updated, and no wait is started.  Otherwise the user is stored and the
    wait of the shard is scheduled, followed by the aggregate wait when none
    is in flight. *)
Theorem ready_payload_outcomes
    (h : DispatchHandler M) (shard : Shard) (data : json) :
  let r := handle h shard "READY" data in
  (forall e,
      bind (getitem data "user") ClientUser_init = Raise e ->
      snd r = Some e
      /\ tasks (fst r) = tasks h
      /\ cache (fst r) = cache h
      /\ client_user (fst r) = client_user h
      /\ ready_task (fst r) = ready_task h)
  /\ (forall u e,
         bind (getitem data "user") ClientUser_init = Ok u ->
         bind (getitem data "guilds") len = Raise e ->
         snd r = Some e
         /\ tasks (fst r) = tasks h
         /\ cache (fst r) = add_user (cache h) u
         /\ client_user (fst r) = Some u
         /\ ready_task (fst r) = ready_task h)
  /\ (forall u n,
         bind (getitem data "user") ClientUser_init = Ok u ->
         bind (getitem data "guilds") len = Ok n ->
         snd r = None
         /\ cache (fst r) = add_user (cache h) u
         /\ client_user (fst r) = Some u
         /\ tasks (fst r)
            = tasks h
              ++ {| task_shard := Some shard; task_pc := Start |}
              :: match ready_task h with
                 | Some _ => []
                 | None => [{| task_shard := None; task_pc := Start |}]
                 end
         /\ ready_task (fst r)
            = match ready_task h with
              | Some k => Some k
              | None => Some (S (length (tasks h)))
              end).
Proof.
  intros r. unfold r. rewrite handle_ready. unfold on_ready, entered.
  split; [|split].
  - intros e He. rewrite He. simpl.
    destruct (debug_events h); simpl; repeat split; reflexivity.
  - intros u e Hu He. rewrite Hu, He. simpl.
    destruct (debug_events h); simpl; repeat split; reflexivity.
  - intros u n Hu Hn. rewrite Hu, Hn. simpl.
    destruct (debug_events h); simpl; destruct (ready_task h) eqn:Hr; simpl;
      rewrite <- ?app_assoc, ?length_app; simpl;
      repeat split; try reflexivity; try exact Hr; f_equal; lia.
Qed.

Lemma on_ready_futures (h : DispatchHandler M) shard data :
  futures (fst (on_ready h shard data)) = futures h
  /\ guild_create_waiter (fst (on_ready h shard data)) = guild_create_waiter h.
Proof.
  unfold on_ready.
  destruct (bind (getitem data "user") ClientUser_init) as [u|];
    [|now split].
  destruct (bind (getitem data "guilds") len); [|now split].
  simpl. destruct (ready_task h); now split.
Qed.

Lemma on_guild_create_futures (h : DispatchHandler M) shard data :
  let h' := fst (on_guild_create h shard data) in
  guild_create_waiter h' = guild_create_waiter h
  /\ length (futures h') = length (futures h)
  /\ (forall f, guild_create_waiter h <> Some f ->
                futures h' !! f = futures h !! f)
  /\ (forall f, futures h !! f = Some Cancelled ->
                futures h' !! f = Some Cancelled).
Proof.
  unfold on_guild_create.
  destruct (Guild_init data) as [g|]; [|simpl; repeat split; trivial].
  destruct (unavailable g); simpl;
    (destruct (guild_create_waiter h) as [w|] eqn:Hw; simpl;
     [|repeat split; trivial]);
    (destruct (futures h !! w) as [[| |]|] eqn:Hfw; simpl;
     try (repeat split; trivial; congruence));
    (rewrite length_insert; split; [congruence|]; split; [reflexivity|];
     split; intros f Hf;
     [apply list_lookup_insert_ne; congruence
     |rewrite list_lookup_insert_ne; [exact Hf | congruence]]).
Qed.

(** Handling a payload gives a result to the current waiter at most: any
    other future, the waiter reference itself and the number of futures are
    left as they were, whatever the title and the payload; a future that
    was cancelled stays cancelled; only GUILD_CREATE changes a future. *)
Theorem payload_touches_only_the_waiter
    (h : DispatchHandler M) (shard : Shard) (title : string) (data : json) :
  let h' := fst (handle h shard title data) in
  guild_create_waiter h' = guild_create_waiter h
  /\ length (futures h') = length (futures h)
  /\ (forall f, guild_create_waiter h <> Some f ->
                futures h' !! f = futures h !! f)
  /\ (forall f, futures h !! f = Some Cancelled ->
                futures h' !! f = Some Cancelled)
  /\ (title <> "GUILD_CREATE" -> futures h' = futures h).
Proof.
  intros h'. unfold h', handle.
  set (h1 := if debug_events h
             then invoke h (GatewayDispatch shard title data) else h).
  assert (Hw : guild_create_waiter h1 = guild_create_waiter h)
    by (unfold h1; now destruct (debug_events h)).
  assert (Hf : futures h1 = futures h)
    by (unfold h1; now destruct (debug_events h)).
  destruct (_handlers !! title) as [f|] eqn:Ht.
  - apply handlers_lookup in Ht as [[-> ->]|[-> ->]].
    + (* READY *)
      unfold call.
      destruct (on_ready_futures
                  (log (Entered on_ready_handler shard) h1) shard data)
        as [H1 H2].
      simpl in H1, H2. rewrite Hf in H1. rewrite Hw in H2. rewrite H1, H2.
      repeat split; trivial.
    + (* GUILD_CREATE *)
      unfold call.
      destruct (on_guild_create_futures
                  (log (Entered on_guild_create_handler shard) h1) shard data)
        as (H1 & H2 & H3 & H4).
      simpl in H1, H2, H3, H4. rewrite Hw in H1, H3. rewrite Hf in H2, H3, H4.
      split; [exact H1|]. split; [exact H2|]. split; [exact H3|].
      split; [exact H4|]. intros Hne. now destruct Hne.
  - simpl. rewrite Hw, Hf. repeat split; trivial.
Qed.

End PayloadFacts.

(* ===================================================================== *)
(** * Readiness of the shards over whole runs                            *)
(* ===================================================================== *)

Section ShardReadiness.
Import Py Asyncio Dispatch Readiness.
Context {M : Models}.
Local Open Scope list_scope.

Lemma count_filter_insert {A} (p : A -> bool) (l : list A) (i : nat) (x y : A) :
  l !! i = Some x ->
  p x = p y ->
  length (filter (fun a => p a = true) (<[i := y]> l))
  = length (filter (fun a => p a = true) l).
Proof.
  intros Hi Hp. pose proof (count_insert p l i x y Hi) as Hc.
  rewrite Hp in Hc. lia.
Qed.

Lemma handle_tasks (h : DispatchHandler M) shard title data :
  exists new,
    tasks (fst (handle h shard title data)) = tasks h ++ new
    /\ (new = []
        \/ title = "READY"
           /\ (new = [{| task_shard := Some shard; task_pc := Start |}]
               \/ new = [{| task_shard := Some shard; task_pc := Start |};
                         {| task_shard := None; task_pc := Start |}])).
Proof.
  destruct (String.eqb_spec title "READY") as [->|Hne].
  - destruct (ready_payload_outcomes h shard data) as (H1 & H2 & H3).
    destruct (bind (getitem data "user") ClientUser_init) as [u|e] eqn:Hu.
    + destruct (bind (getitem data "guilds") len) as [n|e] eqn:Hn.
      * destruct (H3 u n eq_refl eq_refl) as (_ & _ & _ & Ht & _).
        eexists. split; [exact Ht|]. right. split; [reflexivity|].
        destruct (ready_task h); [now left | now right].
      * destruct (H2 u e eq_refl eq_refl) as (_ & Ht & _).
        exists []. rewrite app_nil_r. split; [exact Ht | now left].
    + destruct (H1 e eq_refl) as (_ & Ht & _).
      exists []. rewrite app_nil_r. split; [exact Ht | now left].
  - exists []. rewrite app_nil_r. split; [|now left].
    unfold handle.
    destruct (_handlers !! title) as [f|] eqn:Ht.
    + apply handlers_lookup in Ht as [[-> ->]|[-> ->]]; [congruence|].
      unfold call.
      destruct (on_guild_create_effect
                  (log (Entered on_guild_create_handler shard)
                     (if debug_events h
                      then invoke h (GatewayDispatch shard "GUILD_CREATE" data)
                      else h)) shard data) as [H1 _|s k H1 H2 _|s H1 H2 _].
      * rewrite H1. now destruct (debug_events h).
      * exfalso. revert H2. unfold on_guild_create.
        destruct (Guild_init data) as [g|]; simpl;
          [destruct (unavailable g); simpl;
           (destruct (guild_create_waiter _) as [w|]; simpl;
            [destruct (futures _ !! w) as [[| |]|]; simpl|])|];
          intros Happ; apply (f_equal length) in Happ;
          rewrite length_app in Happ; simpl in Happ; lia.
      * exfalso. revert H2. unfold on_guild_create.
        destruct (Guild_init data) as [g|]; simpl;
          [destruct (unavailable g); simpl;
           (destruct (guild_create_waiter _) as [w|]; simpl;
            [destruct (futures _ !! w) as [[| |]|]; simpl|])|];
          intros Happ; apply (f_equal length) in Happ;
          rewrite length_app in Happ; simpl in Happ; lia.
    + now destruct (debug_events h).
Qed.

Lemma count_shard_ready_handle (h : DispatchHandler M) s shard title data :
  count (is_invoked (ShardReady s)) (fst (handle h shard title data))
  = count (is_invoked (ShardReady s)) h.
Proof.
  unfold count. rewrite handle_trace, !filter_app, !length_app.
  destruct (debug_events h), (_handlers !! title); simpl; lia.
Qed.

Lemma is_invoked_shard_ready (s : Shard) (scope : option Shard) :
  is_invoked (ShardReady s) (Invoked (ready_event scope))
  = is_shard_task s {| task_shard := scope; task_pc := Finished |}.
Proof.
  unfold is_shard_task. destruct scope as [s'|]; simpl; [|reflexivity].
  apply Nat.eqb_sym.
Qed.

Lemma shard_finished_step (h : DispatchHandler M) (a : action) (s : Shard) :
  count (is_invoked (ShardReady s)) h = shard_finished h s ->
  count (is_invoked (ShardReady s)) (step h a) = shard_finished (step h a) s.
Proof.
  intros Hinv. destruct a as [shard title data| |t|i]; simpl.
  - rewrite count_shard_ready_handle, Hinv.
    destruct (handle_tasks h shard title data) as (new & Ht & Hnew).
    unfold shard_finished. rewrite Ht, filter_app, length_app.
    destruct Hnew as [->|[_ [->| ->]]];
      rewrite ?filter_cons_False
        by (cbn; rewrite andb_false_r; discriminate);
      rewrite ?filter_nil; simpl; lia.
  - exact Hinv.
  - now destruct (Qle_bool (now h) t).
  - destruct (prepare_ready_effect h i)
      as [->|t p Ht Hu Hp Hts Hrt Htr|t Ht Hu Hts Hrt Htr].
    + exact Hinv.
    + unfold count. rewrite Htr. fold (count (is_invoked (ShardReady s)) h).
      rewrite Hinv. unfold shard_finished. rewrite Hts. symmetry.
      apply (count_filter_insert
               (fun t => is_shard_task s t && is_finished t) _ _ t); [exact Ht|].
      rewrite Hu, andb_false_r.
      destruct p; simpl; rewrite ?andb_false_r; try reflexivity.
      now destruct Hp.
    + unfold count. rewrite Htr, filter_app, length_app.
      fold (count (is_invoked (ShardReady s)) h). rewrite Hinv.
      unfold shard_finished. rewrite Hts.
      pose proof (count_insert
                    (fun t => is_shard_task s t && is_finished t) (tasks h) i t
                    {| task_shard := task_shard t; task_pc := Finished |} Ht)
        as Hc.
      cbv beta in Hc. rewrite Hu, andb_false_r in Hc.
      rewrite filter_cons, filter_nil.
      rewrite is_invoked_shard_ready.
      change (is_finished {| task_shard := task_shard t; task_pc := Finished |})
        with true in Hc.
      rewrite andb_true_r in Hc.
      destruct (is_shard_task s {| task_shard := task_shard t;
                                   task_pc := Finished |}); simpl in *;
        rewrite <- Hc; lia.
Qed.

Lemma shard_started_step (h : DispatchHandler M) (a : action) (s : Shard) :
  (shard_started (step h a) s
   <= shard_started h s + (if is_ready_for s a then 1 else 0))%nat.
Proof.
  destruct a as [shard title data| |t|i]; simpl.
  - destruct (handle_tasks h shard title data) as (new & Ht & Hnew).
    unfold shard_started. rewrite Ht, filter_app, length_app.
    destruct Hnew as [->|[-> Hnew]]; [simpl; lia|].
    assert (Hone : (length (filter (fun t => is_shard_task s t = true) new)
                    <= if Nat.eqb s shard then 1 else 0)%nat).
    { unfold is_shard_task.
      destruct Hnew as [->| ->]; rewrite !filter_cons, ?filter_nil; simpl;
        destruct (Nat.eqb s shard); simpl; lia. }
    simpl. rewrite andb_true_r. apply Nat.add_le_mono_l. exact Hone.
  - unfold shard_started. simpl. lia.
  - unfold shard_started. destruct (Qle_bool (now h) t); simpl; lia.
  - destruct (prepare_ready_effect h i)
      as [->|t p Ht Hu Hp Hts Hrt Htr|t Ht Hu Hts Hrt Htr]; [lia| |];
      unfold shard_started; rewrite Hts;
      rewrite (count_filter_insert (is_shard_task s) _ _ t) by easy; lia.
Qed.

(** The readiness of a shard is emitted exactly once by each of its waits
    that finishes, and never otherwise; a wait is started for a shard only
    by a READY payload delivered for that shard, one per payload at most. *)
Theorem shard_ready_once_per_wait
    (T : Q) (dbg : bool) (acts : list action) (s : Shard) :
  let h := run (DispatchHandler_init T dbg) acts in
  count (is_invoked (ShardReady s)) h = shard_finished h s
  /\ (shard_finished h s <= shard_started h s)%nat
  /\ (shard_started h s <= ready_received s acts)%nat.
Proof.
  intros h.
  assert (Hgen : forall (acts : list action) (h0 : DispatchHandler M),
             count (is_invoked (ShardReady s)) h0 = shard_finished h0 s ->
             count (is_invoked (ShardReady s)) (run h0 acts)
             = shard_finished (run h0 acts) s
             /\ (shard_started (run h0 acts) s
                 <= shard_started h0 s + ready_received s acts)%nat).
  { clear. induction acts as [|a acts IH]; intros h0 Hinv.
    - split; [exact Hinv|]. simpl. unfold ready_received. simpl. lia.
    - simpl.
      destruct (IH (step h0 a) (shard_finished_step h0 a s Hinv)) as [H1 H2].
      split; [exact H1|].
      pose proof (shard_started_step h0 a s) as H3.
      unfold ready_received in *. rewrite filter_cons.
      destruct (is_ready_for s a); simpl in *; lia. }
  destruct (Hgen acts (DispatchHandler_init T dbg) eq_refl) as [H1 H2].
  split; [exact H1|]. split; [|exact H2].
  unfold shard_finished, shard_started. clear.
  induction (tasks h) as [|t ts IH]; [reflexivity|].
  rewrite !filter_cons.
  destruct (is_shard_task s t), (is_finished t); simpl; lia.
Qed.

End ShardReadiness.

(* ===================================================================== *)
(** * Waits that share the waiter                                        *)
(* ===================================================================== *)

Section SharedWaiter.
Import Py Asyncio Dispatch Readiness.
Context {M : Models}.
Local Open Scope list_scope.

Lemma prepare_ready_wait_effect (h : DispatchHandler M) (j : nat) :
  wait_effect h (_prepare_ready h j) j.
Proof.
  unfold _prepare_ready.
  destruct (tasks h !! j) as [t|] eqn:Ht; [|now apply we_none].
  assert (Harm : wait_effect h (prepare_ready_arm h j t) j).
  { unfold prepare_ready_arm.
    destruct (Qle_bool (ready_timeout h) 0).
    - apply (we_arm_expired _ _ _ t); try assumption;
        unfold prepare_ready_exit; simpl; now destruct (task_shard t).
    - now apply (we_arm _ _ _ t (now h + ready_timeout h)). }
  destruct (task_pc t) as [| |fut d|] eqn:Hpc.
  - destruct (task_shard t); [exact Harm|].
    destruct (shards_connected h); [exact Harm|].
    now apply (we_connect _ _ _ t).
  - destruct (shards_connected h); [exact Harm | now apply we_none].
  - destruct (futures h !! fut) as [[| |]|] eqn:Hf; try now apply we_none.
    + destruct (Qle_bool d (now h)); [|now apply we_none].
      apply (we_timeout _ _ _ t fut d); try assumption;
        unfold prepare_ready_exit; simpl; now destruct (task_shard t).
    + exact Harm.
  - now apply we_none.
Qed.

Lemma finished_wait_step (h : DispatchHandler M) scope i (a : action) :
  finished_wait scope i h -> finished_wait scope i (step h a).
Proof.
  unfold finished_wait. intros Hf.
  destruct a as [shard title data| |t|j]; simpl.
  - destruct (handle_tasks h shard title data) as (new & -> & _).
    now apply lookup_app_l_Some.
  - exact Hf.
  - now destruct (Qle_bool (now h) t).
  - destruct (decide (j = i)) as [->|Hne].
    + unfold _prepare_ready. now rewrite Hf.
    + destruct (prepare_ready_effect h j)
        as [->|t p Ht Hu Hp Hts Hrt Htr|t Ht Hu Hts Hrt Htr];
        [exact Hf | |]; rewrite Hts; now rewrite list_lookup_insert_ne.
Qed.

(** The wait whose future is no longer the waiter is not debounced. *)
Lemma orphaned_step (h : DispatchHandler M) scope i fut d (a : action) :
  orphaned scope i fut d h ->
  orphaned scope i fut d (step h a) \/ finished_wait scope i (step h a).
Proof.
  intros [Htask Hfut Hwaiter Halone].
  assert (Hlt : (fut < length (futures h))%nat)
    by (eapply lookup_lt_Some; eassumption).
  destruct a as [shard title data| |t|j]; simpl.
  - left.
    destruct (payload_touches_only_the_waiter h shard title data)
      as (Hw & _ & Hsame & _).
    destruct (handle_tasks h shard title data) as (new & Ht & Hnew).
    constructor.
    + rewrite Ht. now apply lookup_app_l_Some.
    + rewrite Hsame by assumption. exact Hfut.
    + now rewrite Hw.
    + intros k t0 d' Hk Hpc. rewrite Ht in Hk.
      apply lookup_app_Some in Hk as [Hk|[_ Hk]];
        [eapply Halone; eassumption|].
      exfalso.
      destruct Hnew as [->|[_ [->| ->]]];
        destruct (k - length (tasks h))%nat as [|[|n]]; simpl in Hk;
        try discriminate; injection Hk as <-; discriminate Hpc.
  - left. now constructor.
  - left. destruct (Qle_bool (now h) t); now constructor.
  - destruct (decide (j = i)) as [->|Hne].
    + unfold _prepare_ready. rewrite Htask. simpl. rewrite Hfut.
      destruct (Qle_bool d (now h)); [|left; now constructor].
      right. unfold finished_wait, prepare_ready_exit. simpl.
      destruct scope; simpl; apply list_lookup_insert_eq;
        eapply lookup_lt_Some; eassumption.
    + left.
      destruct (prepare_ready_wait_effect h j)
        as [->|t Ht Hts Hfs Hw|t d0 Ht Hts Hfs Hw|t Ht Hts Hfs Hw
            |t fj dj Ht Hpc Hfj Hts Hfs Hw].
      * now constructor.
      * constructor.
        -- rewrite Hts. now rewrite list_lookup_insert_ne.
        -- now rewrite Hfs.
        -- now rewrite Hw.
        -- intros k t0 d' Hk Hpc0. rewrite Hts in Hk.
           destruct (decide (j = k)) as [<-|Hjk].
           ++ rewrite list_lookup_insert_eq in Hk
                by (eapply lookup_lt_Some; eassumption).
              injection Hk as <-. discriminate Hpc0.
           ++ rewrite list_lookup_insert_ne in Hk by assumption.
              eapply Halone; eassumption.
      * constructor.
        -- rewrite Hts. now rewrite list_lookup_insert_ne.
        -- rewrite Hfs. now apply lookup_app_l_Some.
        -- rewrite Hw. intros [= Heq]. lia.
        -- intros k t0 d' Hk Hpc0. rewrite Hts in Hk.
           destruct (decide (j = k)) as [<-|Hjk].
           ++ rewrite list_lookup_insert_eq in Hk
                by (eapply lookup_lt_Some; eassumption).
              injection Hk as <-. simpl in Hpc0. injection Hpc0 as Heq _. lia.
           ++ rewrite list_lookup_insert_ne in Hk by assumption.
              eapply Halone; eassumption.
      * constructor.
        -- rewrite Hts. now rewrite list_lookup_insert_ne.
        -- rewrite Hfs. now apply lookup_app_l_Some.
        -- rewrite Hw. discriminate.
        -- intros k t0 d' Hk Hpc0. rewrite Hts in Hk.
           destruct (decide (j = k)) as [<-|Hjk].
           ++ rewrite list_lookup_insert_eq in Hk
                by (eapply lookup_lt_Some; eassumption).
              injection Hk as <-. discriminate Hpc0.
           ++ rewrite list_lookup_insert_ne in Hk by assumption.
              eapply Halone; eassumption.
      * assert (Hfne : fj <> fut).
        { intros ->. apply Hne. eapply Halone; eassumption. }
        constructor.
        -- rewrite Hts. now rewrite list_lookup_insert_ne.
        -- rewrite Hfs. now rewrite list_lookup_insert_ne.
        -- rewrite Hw. discriminate.
        -- intros k t0 d' Hk Hpc0. rewrite Hts in Hk.
           destruct (decide (j = k)) as [<-|Hjk].
           ++ rewrite list_lookup_insert_eq in Hk
                by (eapply lookup_lt_Some; eassumption).
              injection Hk as <-. discriminate Hpc0.
           ++ rewrite list_lookup_insert_ne in Hk by assumption.
              eapply Halone; eassumption.
Qed.

Lemma orphaned_run scope i fut d (acts : list action) :
  forall h : DispatchHandler M,
    orphaned scope i fut d h \/ finished_wait scope i h ->
    orphaned scope i fut d (run h acts) \/ finished_wait scope i (run h acts).
Proof.
  induction acts as [|a acts IH]; intros h Hh; [exact Hh|].
  simpl. apply IH. destruct Hh as [Ho|Hf].
  - now apply orphaned_step.
  - right. now apply finished_wait_step.
Qed.

(** A wait whose pending future is not the current waiter is not a
    debounce any more: whatever payloads arrive and whatever else runs, its
    future stays pending and its deadline stays the same until it finishes,
    and when the task runs with the deadline reached it finishes and emits
    its readiness event. *)
Theorem orphaned_wait_keeps_its_deadline
    (h : DispatchHandler M) (scope : option Shard) (i fut : nat) (d : Q)
    (acts : list action) :
  orphaned scope i fut d h ->
  let h' := run h acts in
  (orphaned scope i fut d h' \/ finished_wait scope i h')
  /\ (orphaned scope i fut d h' ->
      Qle_bool d (now h') = true ->
      finished_wait scope i (step h' (Run i))
      /\ trace (step h' (Run i))
         = trace h' ++ [Invoked (ready_event scope)]).
Proof.
  intros Ho h'. split.
  - apply orphaned_run. now left.
  - intros [Htask Hfut _ _] Hd. simpl. unfold _prepare_ready.
    rewrite Htask. simpl. rewrite Hfut, Hd.
    unfold finished_wait, prepare_ready_exit. simpl. split.
    + destruct scope; simpl; apply list_lookup_insert_eq;
        eapply lookup_lt_Some; eassumption.
    + now destruct scope.
Qed.

(** When a wait arms its future while the future of another wait is
    pending, that other wait is orphaned: the waiter now refers to the new
    future, or to none. *)
Theorem arming_orphans_the_pending_wait
    (h : DispatchHandler M) (scope : option Shard) (i j fut : nat) (d : Q) :
  tasks h !! i = Some {| task_shard := scope; task_pc := AwaitWaiter fut d |} ->
  futures h !! fut = Some Pending ->
  (forall k t d', tasks h !! k = Some t -> task_pc t = AwaitWaiter fut d' -> k = i) ->
  j <> i ->
  length (futures (_prepare_ready h j)) = S (length (futures h)) ->
  orphaned scope i fut d (_prepare_ready h j).
Proof.
  intros Htask Hfut Halone Hne Hlen.
  assert (Hlt : (fut < length (futures h))%nat)
    by (eapply lookup_lt_Some; eassumption).
  destruct (prepare_ready_wait_effect h j)
    as [Heq|t Ht Hts Hfs Hw|t d0 Ht Hts Hfs Hw|t Ht Hts Hfs Hw
        |t fj dj Ht Hpc Hfj Hts Hfs Hw].
  - rewrite Heq in Hlen. lia.
  - rewrite Hfs in Hlen. lia.
  - constructor.
    + rewrite Hts. now rewrite list_lookup_insert_ne.
    + rewrite Hfs. now apply lookup_app_l_Some.
    + rewrite Hw. intros [= Heq]. lia.
    + intros k t0 d' Hk Hpc0. rewrite Hts in Hk.
      destruct (decide (j = k)) as [<-|Hjk].
      * rewrite list_lookup_insert_eq in Hk
          by (eapply lookup_lt_Some; eassumption).
        injection Hk as <-. simpl in Hpc0. injection Hpc0 as Heq _. lia.
      * rewrite list_lookup_insert_ne in Hk by assumption.
        eapply Halone; eassumption.
  - constructor.
    + rewrite Hts. now rewrite list_lookup_insert_ne.
    + rewrite Hfs. now apply lookup_app_l_Some.
    + rewrite Hw. discriminate.
    + intros k t0 d' Hk Hpc0. rewrite Hts in Hk.
      destruct (decide (j = k)) as [<-|Hjk].
      * rewrite list_lookup_insert_eq in Hk
          by (eapply lookup_lt_Some; eassumption).
        injection Hk as <-. discriminate Hpc0.
      * rewrite list_lookup_insert_ne in Hk by assumption.
        eapply Halone; eassumption.
  - rewrite Hfs, length_insert in Hlen. lia.
Qed.

End SharedWaiter.

(* ===================================================================== *)
(** * The aggregate wait and the connection of the shards                *)
(* ===================================================================== *)

Section BeforeConnected.
Import Py Asyncio Dispatch Readiness.
Context {M : Models}.
Local Open Scope list_scope.

Lemma handle_shards_connected (h : DispatchHandler M) shard title data :
  shards_connected (fst (handle h shard title data)) = shards_connected h.
Proof.
  unfold handle.
  destruct (_handlers !! title) as [f|] eqn:Ht;
    [|now destruct (debug_events h)].
  apply handlers_lookup in Ht as [[-> ->]|[-> ->]]; unfold call.
  - unfold on_ready.
    destruct (bind (getitem data "user") ClientUser_init) as [u|];
      [|now destruct (debug_events h)].
    destruct (bind (getitem data "guilds") len);
      [|now destruct (debug_events h)].
    simpl. destruct (ready_task _); now destruct (debug_events h).
  - unfold on_guild_create.
    destruct (Guild_init data) as [g|]; [|now destruct (debug_events h)].
    destruct (unavailable g); simpl;
      (destruct (guild_create_waiter _) as [w|];
       [destruct (futures _ !! w) as [[| |]|]|]);
      simpl; now destruct (debug_events h).
Qed.

Lemma prepare_ready_shards_connected (h : DispatchHandler M) (i : nat) :
  shards_connected (_prepare_ready h i) = shards_connected h.
Proof.
  unfold _prepare_ready, prepare_ready_arm, prepare_ready_exit.
  destruct (tasks h !! i) as [[shard p]|]; [|reflexivity].
  destruct p as [| |fut d|]; simpl; try reflexivity.
  - destruct shard; [|destruct (shards_connected h) eqn:Hc];
      try destruct (Qle_bool (ready_timeout h) 0); simpl; congruence.
  - destruct (shards_connected h) eqn:Hc;
      try destruct (Qle_bool (ready_timeout h) 0); simpl;
      destruct shard; simpl; congruence.
  - destruct (futures h !! fut) as [[| |]|]; try reflexivity.
    + destruct (Qle_bool d (now h)); simpl; destruct shard; reflexivity.
    + destruct (Qle_bool (ready_timeout h) 0); simpl; destruct shard;
        reflexivity.
Qed.

Lemma not_connected_step (h : DispatchHandler M) (a : action) :
  a <> Connected -> not_connected h -> not_connected (step h a).
Proof.
  intros Ha [Hflag Htasks].
  destruct a as [shard title data| |t|j]; simpl; [| congruence | |].
  - constructor.
    + now rewrite handle_shards_connected.
    + intros i t Hi Hs.
      destruct (handle_tasks h shard title data) as (new & Ht & Hnew).
      rewrite Ht in Hi.
      apply lookup_app_Some in Hi as [Hi|[_ Hi]];
        [eapply Htasks; eassumption|].
      left.
      destruct Hnew as [->|[_ [->| ->]]];
        destruct (i - length (tasks h))%nat as [|[|n]]; simpl in Hi;
        try discriminate; now injection Hi as <-.
  - destruct (Qle_bool (now h) t); now constructor.
  - assert (Hc : shards_connected (_prepare_ready h j) = false)
      by now rewrite prepare_ready_shards_connected.
    assert (Hkeep : forall (t : Task) (p : pc),
               tasks h !! j = Some t ->
               tasks (_prepare_ready h j)
               = <[j := {| task_shard := task_shard t; task_pc := p |}]> (tasks h) ->
               (task_shard t = None -> p = Start \/ p = AwaitConnected) ->
               not_connected (_prepare_ready h j)).
    { intros t p Ht Hts Hp. constructor; [exact Hc|].
      intros i t0 Hi Hs. rewrite Hts in Hi.
      destruct (decide (j = i)) as [<-|Hji].
      - rewrite list_lookup_insert_eq in Hi
          by (eapply lookup_lt_Some; eassumption).
        injection Hi as <-. simpl in Hs |- *. now apply Hp.
      - rewrite list_lookup_insert_ne in Hi by assumption.
        eapply Htasks; eassumption. }
    assert (Hshard : forall t,
               tasks h !! j = Some t ->
               length (futures (_prepare_ready h j)) = S (length (futures h)) ->
               task_shard t <> None).
    { intros t Ht Hlen Hs. revert Hlen. unfold _prepare_ready. rewrite Ht.
      destruct (Htasks j t Ht Hs) as [-> | ->]; rewrite ?Hs, Hflag; simpl; lia. }
    destruct (prepare_ready_wait_effect h j)
      as [->|t Ht Hts Hfs Hw|t d0 Ht Hts Hfs Hw|t Ht Hts Hfs Hw
          |t fj dj Ht Hpc Hfj Hts Hfs Hw].
    + now constructor.
    + apply (Hkeep t AwaitConnected Ht Hts). now right.
    + apply (Hkeep t _ Ht Hts). intros Hs. exfalso.
      apply (Hshard t Ht); [|exact Hs].
      rewrite Hfs, length_app. simpl. lia.
    + apply (Hkeep t _ Ht Hts). intros Hs. exfalso.
      apply (Hshard t Ht); [|exact Hs].
      rewrite Hfs, length_app. simpl. lia.
    + apply (Hkeep t _ Ht Hts). intros Hs. exfalso.
      destruct (Htasks j t Ht Hs); congruence.
Qed.

Lemma not_connected_run (acts : list action) :
  forall h : DispatchHandler M,
    ~ In Connected acts -> not_connected h -> not_connected (run h acts).
Proof.
  induction acts as [|a acts IH]; intros h Hno Hn; [exact Hn|].
  simpl. apply IH.
  - intros Hin. apply Hno. now right.
  - apply not_connected_step; [|exact Hn].
    intros ->. apply Hno. now left.
Qed.

(** The aggregate [Ready] is never emitted before the shards are reported
    connected: in a run without that signal no aggregate wait arms a future
    or finishes, however much time passes. *)
Theorem no_aggregate_ready_before_connected
    (T : Q) (dbg : bool) (acts : list action) :
  ~ In Connected acts ->
  let h := run (DispatchHandler_init T dbg) acts in
  count (is_invoked Ready) h = 0%nat
  /\ aggregate_finished h = 0%nat
  /\ (forall i t, tasks h !! i = Some t -> task_shard t = None ->
                  task_pc t = Start \/ task_pc t = AwaitConnected).
Proof.
  intros Hno h.
  assert (Hn : not_connected h).
  { apply not_connected_run; [exact Hno|].
    constructor; [reflexivity|]. intros i t Hi. discriminate Hi. }
  assert (Hs : single_aggregate h)
    by apply single_aggregate_run, single_aggregate_init.
  assert (Hf : aggregate_finished h = 0%nat).
  { unfold aggregate_finished.
    pose proof (nc_tasks _ Hn) as Htasks. revert Htasks.
    induction (tasks h) as [|t ts IH]; intros Htasks; [reflexivity|].
    rewrite filter_cons.
    assert (Ht : is_aggregate t && is_finished t = false).
    { unfold is_aggregate, is_finished.
      destruct (task_shard t) eqn:Hs0; [reflexivity|].
      destruct (Htasks 0%nat t eq_refl Hs0) as [-> | ->]; reflexivity. }
    rewrite Ht. simpl. apply IH.
    intros i t0 Hi. apply (Htasks (S i) t0 Hi). }
  split; [|split].
  - rewrite (sa_count _ Hs). exact Hf.
  - exact Hf.
  - apply (nc_tasks _ Hn).
Qed.

End BeforeConnected.

(* ===================================================================== *)
(** * The readiness waits on concrete runs                               *)
(* ===================================================================== *)

Section ReadinessExamples.
Import Py Asyncio Dispatch Readiness.
Local Existing Instance sample_models.
Local Open Scope list_scope.

(** With all shards connected, the wait of shard 0 arms future 0 and the
    aggregate wait then arms future 1: the wait of the shard is orphaned,
    a guild payload and a second of time later it still is, and at its
    deadline of two seconds it finishes with [ShardReady]. *)
Lemma orphaned_wait_keeps_its_deadline_witness :
  let h := run (handler0 false) both_waits_armed in
  let acts := [Recv 0 "GUILD_CREATE" (guild_payload 7 false); Tick 2; Run 1] in
  orphaned (Some 0%nat) 0 0 2 h
  /\ (orphaned (Some 0%nat) 0 0 2 (run h acts)
      \/ finished_wait (Some 0%nat) 0 (run h acts))
  /\ (orphaned (Some 0%nat) 0 0 2 (run h acts) ->
      Qle_bool 2 (now (run h acts)) = true ->
      finished_wait (Some 0%nat) 0 (step (run h acts) (Run 0))
      /\ trace (step (run h acts) (Run 0))
         = trace (run h acts) ++ [Invoked (ShardReady 0)]).
Proof.
  intros h acts.
  assert (Ho : orphaned (Some 0%nat) 0 0 2 h).
  { constructor.
    - vm_compute. reflexivity.
    - vm_compute. reflexivity.
    - vm_compute. discriminate.
    - intros [|[|[|j]]] t d'; vm_compute; intros [= <-]; try discriminate.
      reflexivity. }
  split; [exact Ho|].
  exact (orphaned_wait_keeps_its_deadline h (Some 0%nat) 0 0 2 acts Ho).
Defined.

Lemma arming_orphans_the_pending_wait_witness :
  let h := run (handler0 false)
             [Recv 0 "READY" (ready_payload []); Connected; Run 0] in
  guild_create_waiter h = Some 0%nat
  /\ guild_create_waiter (_prepare_ready h 1) = Some 1%nat
  /\ orphaned (Some 0%nat) 0 0 2 (_prepare_ready h 1).
Proof.
  intros h. split; [vm_compute; reflexivity|].
  split; [vm_compute; reflexivity|].
  apply (arming_orphans_the_pending_wait h (Some 0%nat) 0 1 0 2).
  - vm_compute. reflexivity.
  - vm_compute. reflexivity.
  - intros [|[|[|k]]] t d'; vm_compute; intros [= <-]; try discriminate.
    reflexivity.
  - discriminate.
  - vm_compute. reflexivity.
Defined.

Lemma no_aggregate_ready_before_connected_witness :
  let h := run (handler0 false)
             (shard_wait_started ++ [Tick 5; Run 0; Run 1]) in
  count (is_invoked (ShardReady 0)) h = 1%nat
  /\ count (is_invoked Ready) h = 0%nat
  /\ aggregate_finished h = 0%nat
  /\ (forall i t, tasks h !! i = Some t -> task_shard t = None ->
                  task_pc t = Start \/ task_pc t = AwaitConnected).
Proof.
  intros h. split; [vm_compute; reflexivity|].
  apply (no_aggregate_ready_before_connected 2 false
           (shard_wait_started ++ [Tick 5; Run 0; Run 1])).
  vm_compute. intros H.
  repeat (destruct H as [H|H]; [discriminate H|]). exact H.
Defined.

End ReadinessExamples.

(* ===================================================================== *)
(** * Properties of [GuildMember]                                        *)
(* ===================================================================== *)

Section MemberFacts.
Import Py Members.
Context {M : MemberModels}.
Local Open Scope list_scope.

Lemma ints_length (xs : list json) :
  forall ns, ints xs = Ok ns -> length ns = length xs.
Proof.
  induction xs as [|x xs IH]; intros ns Hn; simpl in Hn.
  - now injection Hn as <-.
  - destruct (int x) as [n|]; simpl in Hn; [|discriminate].
    destruct (ints xs) as [ns'|]; simpl in Hn; [|discriminate].
    injection Hn as <-. simpl. f_equal. now apply IH.
Qed.

(** What a successful [_update_with_data] has computed. *)
Lemma update_with_data_ok get_role data (m : GuildMember M) :
  _update_with_data get_role data = Ok m ->
  exists u j,
    bind (getitem (JDict data) "user") User_init = Ok u
    /\ bind (getitem (JDict data) "joined_at") parse_iso_timestamp = Ok j
    /\ parse_optional (get_default data "premium_since" JNull)
       = Ok (premium_since m)
    /\ parse_optional (get_default data "communication_disabled_until" JNull)
       = Ok (timeout_until m)
    /\ bind (iterate (get_default data "roles" (JList []))) ints
       = Ok (role_ids m)
    /\ user m = u /\ joined_at m = j
    /\ nickname m = get_default data "nick" JNull
    /\ avatar m = get_default data "avatar" JNull
    /\ deaf m = get_default data "deaf" (JBool false)
    /\ mute m = get_default data "mute" (JBool false)
    /\ pending m = get_default data "pending" (JBool false)
    /\ roles m = map get_role (role_ids m).
Proof.
  unfold _update_with_data.
  destruct (bind (getitem (JDict data) "user") User_init) as [u|];
    [|discriminate].
  destruct (bind (getitem (JDict data) "joined_at") parse_iso_timestamp)
    as [j|]; [|discriminate].
  destruct (parse_optional (get_default data "premium_since" JNull))
    as [p|]; [|discriminate].
  destruct (parse_optional
              (get_default data "communication_disabled_until" JNull))
    as [t|]; [|discriminate].
  destruct (bind (iterate (get_default data "roles" (JList []))) ints)
    as [ids|]; [|discriminate].
  simpl. intros [= <-]. exists u, j. simpl. repeat split; reflexivity.
Qed.

(** The roles of a member line up with its role ids: there is one entry
    per id, in the same order, and a role that the cache of the guild does
    not have is kept as [None] at its place rather than dropped.  A payload
    without a "roles" key gives a member without roles, and a list of roles
    in the payload gives as many role ids. *)
Theorem member_roles_line_up
    (get_role : Z -> option Role) (data : list (string * json))
    (m : GuildMember M) :
  _update_with_data get_role data = Ok m ->
  length (roles m) = length (role_ids m)
  /\ (forall i id, role_ids m !! i = Some id -> roles m !! i = Some (get_role id))
  /\ (assoc "roles" data = None -> role_ids m = [] /\ roles m = [])
  /\ (forall l, assoc "roles" data = Some (JList l) ->
                length (role_ids m) = length l).
Proof.
  intros Hm. apply update_with_data_ok in Hm
    as (u & j & _ & _ & _ & _ & Hids & _ & _ & _ & _ & _ & _ & _ & Hroles).
  rewrite Hroles. split; [apply length_map|]. split; [|split].
  - intros i id Hi. rewrite list_lookup_fmap, Hi. reflexivity.
  - intros Hnone. unfold get_default in Hids. rewrite Hnone in Hids.
    simpl in Hids. injection Hids as <-. now split.
  - intros l Hl. unfold get_default in Hids. rewrite Hl in Hids.
    simpl in Hids. now apply ints_length.
Qed.

(** The payload of a member must have the "user" and the "joined_at" keys:
    without "user" the construction raises [KeyError] for "user" (also when
    "joined_at" is missing too); with a user that can be read and without
    "joined_at" it raises [KeyError] for "joined_at".  The other keys are
    optional: on success, an absent key gives [None] for the nickname and
    the avatar, [False] for the flags, and the member is boosting exactly
    when the payload has a "premium_since" that is not null. *)
Theorem member_required_and_optional_keys
    (get_role : Z -> option Role) (data : list (string * json)) :
  (assoc "user" data = None ->
   _update_with_data get_role data = Raise (KeyError "user"))
  /\ (forall u,
         bind (getitem (JDict data) "user") User_init = Ok u ->
         assoc "joined_at" data = None ->
         _update_with_data get_role data = Raise (KeyError "joined_at"))
  /\ (forall m,
         _update_with_data get_role data = Ok m ->
         (assoc "nick" data = None -> nickname m = JNull)
         /\ (assoc "avatar" data = None -> avatar m = JNull)
         /\ (assoc "deaf" data = None -> deaf m = JBool false)
         /\ (assoc "mute" data = None -> mute m = JBool false)
         /\ (assoc "pending" data = None -> pending m = JBool false)
         /\ (is_boosting m = true
             <-> get_default data "premium_since" JNull <> JNull)).
Proof.
  split; [|split].
  - intros Hu. unfold _update_with_data. simpl. now rewrite Hu.
  - intros u Hu Hj. unfold _update_with_data. rewrite Hu. simpl.
    now rewrite Hj.
  - intros m Hm. apply update_with_data_ok in Hm
      as (u & j & _ & _ & Hp & _ & _ & _ & _ & Hn & Ha & Hd & Hmu & Hpe & _).
    rewrite Hn, Ha, Hd, Hmu, Hpe. unfold get_default in *.
    repeat split; try (intros ->; reflexivity).
    + unfold is_boosting, parse_optional in *. intros Hb Hnull.
      rewrite Hnull in Hp. injection Hp as Hp. rewrite <- Hp in Hb.
      discriminate.
    + unfold is_boosting, parse_optional in *. intros Hnn.
      destruct (match assoc "premium_since" data with
                | Some v => v
                | None => JNull
                end); try congruence;
        (destruct (parse_iso_timestamp _); simpl in Hp; [|discriminate];
         injection Hp as <-; reflexivity).
Qed.

(** A guild avatar shadows the avatar of the user: for a member with a
    guild avatar, [is_avatar_animated] gives the same answer with and
    without [guild_only]; for a member without one, [guild_only] gives
    [False] and the default follows the avatar of the user. *)
Theorem member_avatar_animation (m : GuildMember M) :
  (avatar m <> JNull ->
   is_avatar_animated m false = is_avatar_animated m true)
  /\ (avatar m = JNull ->
      is_avatar_animated m true = Ok false
      /\ is_avatar_animated m false
         = Ok (match user_avatar (user m) with
               | Some a => String.prefix "a_" a
               | None => false
               end))
  /\ (is_avatar_animated m true = Ok true ->
      is_avatar_animated m false = Ok true).
Proof.
  unfold is_avatar_animated, display_avatar. split; [|split].
  - intros Hn. destruct (avatar m); try reflexivity. now destruct Hn.
  - intros ->. split; [reflexivity|].
    now destruct (user_avatar (user m)).
  - destruct (avatar m); try (intros H; exact H). discriminate.
Qed.

(** A payload without "nick" and without "avatar" gives a member that is
    displayed as its user: the display name is the name of the user, the
    display avatar is the avatar of the user, and the member has no
    animated avatar of its own. *)
Theorem member_displayed_as_its_user
    (get_role : Z -> option Role) (data : list (string * json))
    (m : GuildMember M) :
  _update_with_data get_role data = Ok m ->
  assoc "nick" data = None ->
  assoc "avatar" data = None ->
  display_name m = JStr (user_name (user m))
  /\ display_avatar m = match user_avatar (user m) with
                        | Some a => JStr a
                        | None => JNull
                        end
  /\ is_avatar_animated m true = Ok false
  /\ bind (getitem (JDict data) "user") User_init = Ok (user m).
Proof.
  intros Hm Hnick Hav. apply update_with_data_ok in Hm
    as (u & j & Hu & _ & _ & _ & _ & Hmu & _ & Hn & Ha & _).
  unfold get_default in Hn, Ha. rewrite Hnick in Hn. rewrite Hav in Ha.
  unfold display_name, display_avatar, is_avatar_animated.
  rewrite Hn, Ha, Hmu. repeat split; try reflexivity. exact Hu.
Qed.

End MemberFacts.

Section MemberExamples.
Import Py Members.
Local Open Scope list_scope.

Lemma member_roles_line_up_witness :
  exists m : GuildMember sample_member_models,
    _update_with_data (M := sample_member_models) sample_get_role
      sample_member_payload = Ok m
    /\ role_ids m = [10%Z; 20%Z]
    /\ roles m = [Some "admin"; None]
    /\ length (roles m) = length (role_ids m).
Proof.
  eexists. split; [vm_compute; reflexivity|].
  split; [reflexivity|]. split; [reflexivity|].
  eapply (member_roles_line_up (M := sample_member_models) sample_get_role
            sample_member_payload).
  vm_compute. reflexivity.
Defined.

Lemma member_displayed_as_its_user_witness :
  exists m : GuildMember sample_member_models,
    _update_with_data (M := sample_member_models) sample_get_role
      sample_member_payload = Ok m
    /\ display_name m = JStr "ada"
    /\ is_avatar_animated m false = Ok true
    /\ is_avatar_animated m true = Ok false.
Proof.
  eexists. split; [vm_compute; reflexivity|].
  split; [reflexivity|]. split; [reflexivity|].
  eapply (member_displayed_as_its_user (M := sample_member_models)
            sample_get_role sample_member_payload);
    vm_compute; reflexivity.
Defined.

End MemberExamples.
